(** * URL normalisation and turnstile reporting of [src/util/mapbox.js]

    A shallow embedding of the module and the proofs of its specified
    properties.

    Modelling conventions.
    - A JavaScript string is a [string]; one [ascii] stands for one code unit,
      so the model covers the strings whose code units are below 256.
    - [?string] arguments and configuration entries are [option string];
      [truthy] is JavaScript truthiness on them.
    - [throw new Error(msg)] is the completion [Throw msg]; a normal return
      of [v] is [Return v].
    - The regular expressions are written as syntax trees and run by a
      backtracking matcher with the priorities of the ECMAScript matcher
      (greedy quantifiers, left alternative first).
    - [config] and [browser] are imported modules of the repository that the
      functions only read; they are records passed to every function.
    - Time values are integers, the milliseconds since the epoch, and the
      elapsed days are their exact quotient; the device pixel ratio is a
      rational. *)

From Stdlib Require Import ZArith QArith Ascii String Lia.
From stdpp Require Import base strings list gmap.

(** String concatenation computes on the constructors of its first
    argument. *)
#[local] Arguments String.append !s1 s2 / : simpl nomatch.

(** ** Completions *)

Inductive completion (A : Type) : Type :=
| Return (a : A)
| Throw (msg : string).
Arguments Return {A} a.
Arguments Throw {A} msg.

#[global] Instance completion_ret : MRet completion := λ A a, Return a.

#[global] Instance completion_bind : MBind completion := λ A B f c,
  match c with
  | Return a => f a
  | Throw msg => Throw msg
  end.

(** ** Strings *)

(** [s] is truthy: neither [null]/[undefined] nor the empty string. *)
Definition truthy (s : option string) : bool :=
  match s with
  | Some (String _ _) => true
  | _ => false
  end.

(** [a || b] on optional strings. *)
Definition or_else (a b : option string) : option string :=
  if truthy a then a else b.

(** The text a template literal interpolates for [s || ''] when [s] is
    truthy, and [''] otherwise. *)
Definition or_empty (s : option string) : string :=
  match s with
  | Some t => t
  | None => ""
  end.

(** [s.indexOf(p) === 0]. *)
Fixpoint starts_with (p s : string) : bool :=
  match p, s with
  | EmptyString, _ => true
  | String a p', String b s' => Ascii.eqb a b && starts_with p' s'
  | String _ _, EmptyString => false
  end.

(** [s.split(sep)] for a one-character separator. *)
Fixpoint split (sep : ascii) (s : string) : list string :=
  match s with
  | EmptyString => [""]
  | String c s' =>
      if Ascii.eqb c sep then "" :: split sep s'
      else match split sep s' with
           | h :: t => String c h :: t
           | [] => [String c ""]
           end
  end.

(** [l.join(sep)]. *)
Fixpoint join (sep : string) (l : list string) : string :=
  match l with
  | [] => ""
  | [x] => x
  | x :: t => x +:+ sep +:+ join sep t
  end.

(** ** Regular expressions *)

Module RegExp.

Inductive regex : Type :=
| Empty
| Char (c : ascii)
| Class (p : ascii → bool)
| Seq (r1 r2 : regex)
| Alt (r1 r2 : regex)
| Group (n : nat) (r : regex)       (* ( r ), the n-th capturing group *)
| Opt (r : regex)                   (* r? *)
| Star (p : ascii → bool)           (* [p]* *)
| Plus (p : ascii → bool)           (* [p]+ *)
| Bol                               (* ^ without the m flag *)
| Eol                               (* $ without the m flag *)
| Lookahead (r : regex).            (* (?= r ) *)

Definition Cat (rs : list regex) : regex := foldr Seq Empty rs.

Definition captures : Type := nat → option string.

Definition no_captures : captures := λ _, None.

Definition set_capture (n : nat) (v : string) (c : captures) : captures :=
  λ i, if Nat.eqb i n then Some v else c i.

(** The text between the position where [s] starts and the later position
    where [s'] starts. *)
Definition consumed (s s' : string) : string :=
  substring 0 (String.length s - String.length s') s.

Definition state : Type := string * captures.

(** Greedy iteration of a character class: the longest run first, then
    each shorter one until the continuation accepts. *)
Fixpoint star (p : ascii → bool) (s : string) (k : string → option state)
  : option state :=
  match s with
  | String c s' =>
      if p c then
        match star p s' k with
        | Some r => Some r
        | None => k s
        end
      else k s
  | EmptyString => k s
  end.

(** [matcher input r s caps k]: match [r] at the suffix [s] of [input],
    then run the continuation [k] on what is left; on failure of [k]
    backtrack into [r]. *)
Fixpoint matcher (input : string) (r : regex) (s : string) (caps : captures)
    (k : string → captures → option state) : option state :=
  match r with
  | Empty => k s caps
  | Char c =>
      match s with
      | String c' s' => if Ascii.eqb c c' then k s' caps else None
      | EmptyString => None
      end
  | Class p =>
      match s with
      | String c' s' => if p c' then k s' caps else None
      | EmptyString => None
      end
  | Seq r1 r2 =>
      matcher input r1 s caps (λ s1 caps1, matcher input r2 s1 caps1 k)
  | Alt r1 r2 =>
      match matcher input r1 s caps k with
      | Some st => Some st
      | None => matcher input r2 s caps k
      end
  | Group n r1 =>
      matcher input r1 s caps
        (λ s1 caps1, k s1 (set_capture n (consumed s s1) caps1))
  | Opt r1 =>
      match matcher input r1 s caps k with
      | Some st => Some st
      | None => k s caps
      end
  | Star p => star p s (λ s1, k s1 caps)
  | Plus p =>
      match s with
      | String c' s' => if p c' then star p s' (λ s1, k s1 caps) else None
      | EmptyString => None
      end
  | Bol =>
      if Nat.eqb (String.length s) (String.length input) then k s caps
      else None
  | Eol =>
      match s with
      | EmptyString => k s caps
      | String _ _ => None
      end
  | Lookahead r1 =>
      match matcher input r1 s caps (λ s1 caps1, Some (s1, caps1)) with
      | Some (_, caps1) => k s caps1
      | None => None
      end
  end.

(** The result of [RegExp.prototype.exec]: the index of the match, the
    array of the whole match and the groups, and the text after the
    match. *)
Record match_result : Type := MatchResult {
  index : nat;
  parts : nat → option string;
  after : string
}.

(** [exec] on a regex without the g flag: try every start position from
    the left. [s] is the suffix of [input] at position [i]. *)
Fixpoint exec_from (input : string) (r : regex) (i : nat) (s : string)
  : option match_result :=
  match matcher input r s no_captures (λ s1 caps1, Some (s1, caps1)) with
  | Some (s1, caps1) =>
      Some {| index := i;
              parts := λ n, match n with
                            | O => Some (consumed s s1)
                            | S _ => caps1 n
                            end;
              after := s1 |}
  | None =>
      match s with
      | String _ s' => exec_from input r (S i) s'
      | EmptyString => None
      end
  end.

Definition exec (r : regex) (input : string) : option match_result :=
  exec_from input r 0 input.

(** The number of capturing groups of a regex. *)
Fixpoint ngroups (r : regex) : nat :=
  match r with
  | Seq r1 r2 | Alt r1 r2 => ngroups r1 + ngroups r2
  | Group _ r1 => S (ngroups r1)
  | Opt r1 | Lookahead r1 => ngroups r1
  | _ => 0
  end.

Definition digit_value (c : ascii) : option nat :=
  let n := nat_of_ascii c in
  if (48 <=? n)%nat && (n <=? 57)%nat then Some (n - 48) else None.

(** [GetSubstitution] for the replacement patterns [$$], [$&] and [$n]
    with one digit; every other character stands for itself. [m] is the
    number of capturing groups. *)
Fixpoint substitution (m : nat) (res : match_result) (template : string)
  : string :=
  match template with
  | EmptyString => ""
  | String "$" (String c t as t1) =>
      if Ascii.eqb c "$" then String "$" (substitution m res t)
      else if Ascii.eqb c "&" then or_empty (parts res 0) +:+ substitution m res t
      else match digit_value c with
           | Some n =>
               if (1 <=? n)%nat && (n <=? m)%nat
               then or_empty (parts res n) +:+ substitution m res t
               else String "$" (substitution m res t1)
           | None => String "$" (substitution m res t1)
           end
  | String c t => String c (substitution m res t)
  end.

(** [input.replace(r, template)] for a regex without the g flag. *)
Definition replace (r : regex) (template input : string) : string :=
  match exec r input with
  | None => input
  | Some res =>
      substring 0 (index res) input +:+ substitution (ngroups r) res template
        +:+ after res
  end.

(** Character classes. *)
Definition in_range (lo hi : nat) (c : ascii) : bool :=
  let n := nat_of_ascii c in (lo <=? n)%nat && (n <=? hi)%nat.

(** [\d] *)
Definition digit (c : ascii) : bool := in_range 48 57 c.

(** [\w] *)
Definition word (c : ascii) : bool :=
  in_range 97 122 c || in_range 65 90 c || digit c || Ascii.eqb c "_".

(** [.] without the s flag: any code unit but a line terminator. *)
Definition dot (c : ascii) : bool :=
  negb (Ascii.eqb c "010" || Ascii.eqb c "013").

(** [[^...]] *)
Definition none_of (cs : list ascii) (c : ascii) : bool :=
  negb (existsb (Ascii.eqb c) cs).

(** A literal word. *)
Fixpoint Lit (s : string) : regex :=
  match s with
  | EmptyString => Empty
  | String c s' => Seq (Char c) (Lit s')
  end.

End RegExp.

Import RegExp.

(** ** The module *)

Record config : Type := Config {
  API_URL : string;
  EVENTS_URL : string;
  REQUIRE_ACCESS_TOKEN : bool;
  ACCESS_TOKEN : option string
}.

Record browser : Type := Browser {
  devicePixelRatio : Q;
  supportsWebp : bool
}.

Definition help : string :=
  "See https://www.mapbox.com/api-documentation/#access-tokens".

Record UrlObject : Type := mkUrlObject {
  protocol : string;
  authority : string;
  path : string;
  params : list string
}.

Definition set_path (u : UrlObject) (p : string) : UrlObject :=
  {| protocol := protocol u; authority := authority u; path := p;
     params := params u |}.

Definition set_params (u : UrlObject) (ps : list string) : UrlObject :=
  {| protocol := protocol u; authority := authority u; path := path u;
     params := ps |}.

(** The pattern [^(\w+):\/\/] [([^/?]* )] [(\/[^?]+)?] [\??] [(.+)?], one
    item of the list per factor. *)
Definition urlRe : regex :=
  Cat [ Bol;
        Group 1 (Plus word);
        Lit "://";
        Group 2 (Star (none_of ["/"; "?"]%char));
        Opt (Group 3 (Seq (Char "/") (Plus (none_of ["?"]%char))));
        Opt (Char "?");
        Opt (Group 4 (Plus dot)) ].

Definition MalformedURLError : string := "Unable to parse URL object".

Definition parseUrl (url : string) : completion UrlObject :=
  match exec urlRe url with
  | None => Throw MalformedURLError
  | Some m =>
      Return {| protocol := or_empty (parts m 1);
                authority := or_empty (parts m 2);
                path := if truthy (parts m 3) then or_empty (parts m 3) else "/";
                params := if truthy (parts m 4)
                          then split "&" (or_empty (parts m 4)) else [] |}
  end.

Definition formatUrl (obj : UrlObject) : string :=
  let params :=
    match params obj with
    | [] => ""
    | _ :: _ => "?" +:+ join "&" (params obj)
    end in
  protocol obj +:+ "://" +:+ authority obj +:+ path obj +:+ params.

Definition set_origin (u : UrlObject) (proto auth : string) : UrlObject :=
  {| protocol := proto; authority := auth; path := path u;
     params := params u |}.

(** [params.push(p)] *)
Definition push_param (u : UrlObject) (p : string) : UrlObject :=
  set_params u (params u ++ [p]).

Definition MissingTokenError : string :=
  "An API access token is required to use Mapbox GL. " +:+ help.

Definition SecretTokenError : string :=
  "Use a public access token (pk.*) with Mapbox GL, not a secret access token (sk.*). "
  +:+ help.

(** [s[0] === c] *)
Definition first_is (c : ascii) (s : string) : bool :=
  match s with
  | String a _ => Ascii.eqb a c
  | EmptyString => false
  end.

Definition makeAPIURL (cfg : config) (urlObject : UrlObject)
    (accessToken : option string) : completion string :=
  apiUrlObject ← parseUrl (API_URL cfg);
  let urlObject :=
    set_origin urlObject (protocol apiUrlObject) (authority apiUrlObject) in
  let urlObject :=
    if negb (String.eqb (path apiUrlObject) "/")
    then set_path urlObject (path apiUrlObject +:+ path urlObject)
    else urlObject in
  if negb (REQUIRE_ACCESS_TOKEN cfg) then Return (formatUrl urlObject)
  else
    let accessToken := or_else accessToken (ACCESS_TOKEN cfg) in
    if negb (truthy accessToken) then Throw MissingTokenError
    else if first_is "s" (or_empty accessToken) then Throw SecretTokenError
    else
      Return (formatUrl
                (push_param urlObject ("access_token=" +:+ or_empty accessToken))).

Definition isMapboxURL (url : string) : bool := starts_with "mapbox:" url.

Definition normalizeStyleURL (cfg : config) (url : string)
    (accessToken : option string) : completion string :=
  if negb (isMapboxURL url) then Return url
  else
    urlObject ← parseUrl url;
    let urlObject := set_path urlObject ("/styles/v1" +:+ path urlObject) in
    makeAPIURL cfg urlObject accessToken.

Definition normalizeGlyphsURL (cfg : config) (url : string)
    (accessToken : option string) : completion string :=
  if negb (isMapboxURL url) then Return url
  else
    urlObject ← parseUrl url;
    let urlObject := set_path urlObject ("/fonts/v1" +:+ path urlObject) in
    makeAPIURL cfg urlObject accessToken.

Definition normalizeSourceURL (cfg : config) (url : string)
    (accessToken : option string) : completion string :=
  if negb (isMapboxURL url) then Return url
  else
    urlObject ← parseUrl url;
    let urlObject :=
      set_path urlObject ("/v4/" +:+ authority urlObject +:+ ".json") in
    let urlObject := push_param urlObject "secure" in
    makeAPIURL cfg urlObject accessToken.

Definition normalizeSpriteURL (cfg : config) (url format extension : string)
    (accessToken : option string) : completion string :=
  urlObject ← parseUrl url;
  if negb (isMapboxURL url) then
    let urlObject :=
      set_path urlObject (path urlObject +:+ format +:+ extension) in
    Return (formatUrl urlObject)
  else
    let urlObject :=
      set_path urlObject
        ("/styles/v1" +:+ path urlObject +:+ "/sprite" +:+ format +:+ extension) in
    makeAPIURL cfg urlObject accessToken.

(** The pattern [(\.(png|jpg)\d* )(?=$)]. *)
Definition imageExtensionRe : regex :=
  Cat [ Group 1 (Cat [ Char "."; Group 2 (Alt (Lit "png") (Lit "jpg"));
                       Star digit ]);
        Lookahead Eol ].

(** The loop of [replaceTempAccessToken]: [fuel] iterations from index
    [i], each assigning [params[i]] in place. *)
Fixpoint replaceTempAccessToken_from (cfg : config) (fuel i : nat)
    (params : list string) : list string :=
  match fuel with
  | O => params
  | S fuel' =>
      let params :=
        match params !! i with
        | Some p =>
            if starts_with "access_token=tk." p
            then <[i := "access_token=" +:+ or_empty (ACCESS_TOKEN cfg)]> params
            else params
        | None => params
        end in
      replaceTempAccessToken_from cfg fuel' (S i) params
  end.

Definition replaceTempAccessToken (cfg : config) (params : list string)
  : list string :=
  replaceTempAccessToken_from cfg (length params) 0 params.

Definition normalizeTileURL (cfg : config) (env : browser) (tileURL : string)
    (sourceURL : option string) (tileSize : option Z) : completion string :=
  if negb (truthy sourceURL) || negb (isMapboxURL (or_empty sourceURL))
  then Return tileURL
  else
    urlObject ← parseUrl tileURL;
    let suffix :=
      if Qle_bool 2 (devicePixelRatio env)
         || match tileSize with Some n => (n =? 512)%Z | None => false end
      then "@2x" else "" in
    let extension := if supportsWebp env then ".webp" else "$1" in
    let urlObject :=
      set_path urlObject
        (replace imageExtensionRe (suffix +:+ extension) (path urlObject)) in
    let urlObject :=
      set_params urlObject (replaceTempAccessToken cfg (params urlObject)) in
    Return (formatUrl urlObject).

(** ** The turnstile event *)

(** [x < y] on the rationals, as a boolean. *)
Definition Qlt_bool (x y : Q) : bool := negb (Qle_bool y x).

(** The object kept, serialised, under the key ['mapbox.userTurnstileData'].
    The store is modelled with its values decoded: [JSON.parse] of what
    [JSON.stringify] wrote. A field that the object lacks is [None]; a
    stored text that is not such an object is outside of the model. *)
Record TurnstileData : Type := mkTurnstileData {
  lastSuccess : option Z;
  anonId : option string
}.

Definition turnstileKey : string := "mapbox.userTurnstileData".

(** [if (lastUpdateTime)] on a number: neither missing nor zero. *)
Definition truthy_number (t : option Z) : bool :=
  match t with
  | Some n => negb (n =? 0)%Z
  | None => false
  end.

Definition number_or_zero (t : option Z) : Z :=
  match t with
  | Some n => n
  | None => 0%Z
  end.

(** The body that [xhr.send] posts: the one event of the array, with the
    time of [created] before it is printed in ISO 8601. *)
Record TurnstileEvent : Type := mkTurnstileEvent {
  event : string;
  created : Z;
  sdkIdentifier : string;
  sdkVersion : string;
  enabled_telemetry : bool;
  userId : string
}.

(** The request made by [postTurnstileEvent], with the two variables its
    [onreadystatechange] handler closes over. *)
Record Request : Type := mkRequest {
  method : string;
  url : string;
  async : bool;
  requestHeaders : list (string * string);
  body : TurnstileEvent;
  handler_localStorageAvailable : bool;
  handler_anonId : string
}.

Definition msPerDay : Z := (24 * 60 * 60 * 1000)%Z.

Section Turnstile.

(** The helpers imported from [./util] and [package.json], and the clock
    of the platform. [getDate t] is [new Date(t).getDate()], the day of
    the month in the local time zone, or [None] when it is [NaN]. *)
Variable storageAvailable : string → bool.
Variable validateUuid : option string → bool.
Variable version : string.
Variable getDate : Z → option Z.

(** [a.getDate() === b.getDate()]: [NaN] equals nothing. *)
Definition same_date (a b : Z) : bool :=
  match getDate a, getDate b with
  | Some x, Some y => (x =? y)%Z
  | _, _ => false
  end.

(** [(+now - lastUpdate) / (24 * 60 * 60 * 1000)], as an exact
    fraction: on integer times the rounding of the floating-point division
    changes neither of the two comparisons made on the quotient. *)
Definition daysElapsed (now lastUpdate : Z) : Q :=
  (inject_Z (now - lastUpdate) / inject_Z msPerDay)%Q.

(** The condition of the early return at the once-per-day check. *)
Definition sameDayPing (now lastUpdate : Z) : bool :=
  same_date lastUpdate now
  && Qle_bool 0 (daysElapsed now lastUpdate)
  && Qlt_bool (daysElapsed now lastUpdate) 1.

(** The cached data: the values of [anonId] and [lastUpdateTime] after
    the retrieval. *)
Definition retrieve (localStorageAvailable : bool)
    (localStorage : gmap string TurnstileData)
  : option string * option Z :=
  if localStorageAvailable then
    match localStorage !! turnstileKey with
    | Some json => (anonId json, lastSuccess json)
    | None => (None, None)
    end
  else (None, None).

(** [postTurnstileEvent()]. [uuid] is the value [uuid()] would return,
    [now] the clock at the once-per-day check and [sent] the clock when
    the event is built. [Return None] is a return before any request;
    [Return (Some r)] is a call that sent [r]. *)
Definition postTurnstileEvent (cfg : config)
    (localStorage : gmap string TurnstileData) (uuid : string)
    (now sent : Z) : completion (option Request) :=
  if negb (truthy (ACCESS_TOKEN cfg)) then Return None
  else
    let localStorageAvailable := storageAvailable "localSotorage" in
    let '(anonId, lastUpdateTime) :=
      retrieve localStorageAvailable localStorage in
    let anonId := if negb (validateUuid anonId) then uuid
                  else or_empty anonId in
    if truthy_number lastUpdateTime
       && sameDayPing now (number_or_zero lastUpdateTime)
    then Return None
    else
      evenstUrlObject ← parseUrl (EVENTS_URL cfg);
      let evenstUrlObject :=
        push_param evenstUrlObject
          ("access_token=" +:+ or_empty (ACCESS_TOKEN cfg)) in
      let eventsUrl := formatUrl evenstUrlObject in
      Return (Some {| method := "POST";
                      url := eventsUrl;
                      async := true;
                      requestHeaders := [("Content-Type", "text/plain")];
                      body := {| event := "appUserTurnstile";
                                 created := sent;
                                 sdkIdentifier := "mapbox-gl-js";
                                 sdkVersion := version;
                                 enabled_telemetry := false;
                                 userId := anonId |};
                      handler_localStorageAvailable := localStorageAvailable;
                      handler_anonId := anonId |}).

End Turnstile.

(** The [onreadystatechange] handler of a request: [&&] binds tighter than
    [||], so the condition is [(a && b && c) || d]. [now] is [Date.now()]
    at the time of the event. *)
Definition onreadystatechange (r : Request) (readyState status now : Z)
    (localStorage : gmap string TurnstileData) : gmap string TurnstileData :=
  if (handler_localStorageAvailable r && (readyState =? 4)%Z
      && (status =? 200)%Z)
     || (status =? 204)%Z
  then <[turnstileKey := {| lastSuccess := Some now;
                            anonId := Some (handler_anonId r) |}]> localStorage
  else localStorage.

(** A calendar for the examples: the day of the month in UTC. *)
Definition utcGetDate (t : Z) : option Z :=
  if (Z.abs t <=? 8640000000000000)%Z then
    let z := (t / msPerDay + 719468)%Z in
    let doe := (z mod 146097)%Z in
    let yoe := ((doe - doe / 1460 + doe / 36524 - doe / 146096) / 365)%Z in
    let doy := (doe - (365 * yoe + yoe / 4 - yoe / 100))%Z in
    let mp := ((5 * doy + 2) / 153)%Z in
    Some (doy - (153 * mp + 2) / 5 + 1)%Z
  else None.

(** ** Scanning

    What the two patterns do, written as scans from the left. *)

Fixpoint take_while (p : ascii → bool) (s : string) : string :=
  match s with
  | String c s' => if p c then String c (take_while p s') else ""
  | EmptyString => ""
  end.

Fixpoint drop_while (p : ascii → bool) (s : string) : string :=
  match s with
  | String c s' => if p c then drop_while p s' else s
  | EmptyString => ""
  end.

Fixpoint all_chars (p : ascii → bool) (s : string) : bool :=
  match s with
  | String c s' => p c && all_chars p s'
  | EmptyString => true
  end.

(** [s] is empty or starts with a character outside of [p]. *)
Definition stops (p : ascii → bool) (s : string) : bool :=
  match s with
  | String c _ => negb (p c)
  | EmptyString => true
  end.

Fixpoint strip_prefix (p s : string) : option string :=
  match p, s with
  | EmptyString, _ => Some s
  | String a p', String b s' =>
      if Ascii.eqb a b then strip_prefix p' s' else None
  | String _ _, EmptyString => None
  end.

Definition not_slash_question : ascii → bool := none_of ["/"; "?"]%char.
Definition not_question : ascii → bool := none_of ["?"]%char.

(** The path group at [r]: the path and what follows it. *)
Definition scan_path (r : string) : option string * string :=
  match r with
  | String c t =>
      if Ascii.eqb "/" c then
        match t with
        | String c' t' =>
            if not_question c'
            then (Some (String c (String c' (take_while not_question t'))),
                  drop_while not_question t')
            else (None, r)
        | EmptyString => (None, r)
        end
      else (None, r)
  | EmptyString => (None, r)
  end.

Definition skip_question (r : string) : string :=
  match r with
  | String c t => if Ascii.eqb "?" c then t else r
  | EmptyString => r
  end.

Definition scanUrl (url : string) : completion UrlObject :=
  match take_while word url, strip_prefix "://" (drop_while word url) with
  | String _ _ as scheme, Some r2 =>
      let r3 := drop_while not_slash_question r2 in
      let q := take_while dot (skip_question (scan_path r3).2) in
      Return {| protocol := scheme;
                authority := take_while not_slash_question r2;
                path := match (scan_path r3).1 with
                        | Some p => p
                        | None => "/"
                        end;
                params := match q with
                          | String _ _ => split "&" q
                          | EmptyString => []
                          end |}
  | _, _ => Throw MalformedURLError
  end.

(** The captures after a group that may not take part in the match. *)
Definition with_capture (n : nat) (v : option string) (c : captures)
  : captures :=
  match v with
  | Some (String _ _ as q) => set_capture n q c
  | _ => c
  end.

(** The continuation at the end of a pattern. *)
Definition accept : string → captures → option state := λ s c, Some (s, c).

(** The captures of [urlRe] on [url], where [r2] is what follows ["://"]. *)
Definition url_captures (url r2 : string) : captures :=
  let r3 := drop_while not_slash_question r2 in
  with_capture 4 (Some (take_while dot (skip_question (scan_path r3).2)))
    (with_capture 3 (scan_path r3).1
       (set_capture 2 (take_while not_slash_question r2)
          (set_capture 1 (take_while word url) no_captures))).

(** The query part of a formatted URL. *)
Definition query_suffix (ps : list string) : string :=
  match ps with
  | [] => ""
  | _ :: _ => "?" +:+ join "&" ps
  end.

(** ** The vocabulary of the specification *)

(** The input grammar [scheme://authority[/path][?query]]: a non-empty
    scheme of word characters, then ["://"], then the rest. *)
Definition url_grammar (url : string) : Prop :=
  ∃ scheme rest,
    scheme ≠ "" ∧ all_chars word scheme = true
    ∧ url = scheme +:+ "://" +:+ rest.

(** The same, decided. *)
Definition matches_url_grammar (url : string) : bool :=
  match take_while word url with
  | String _ _ => starts_with "://" (drop_while word url)
  | EmptyString => false
  end.

(** A path written out in the input: a slash and at least one more
    character, none of them a question mark. *)
Definition explicit_path (p : string) : bool :=
  match p with
  | String c (String c' t) =>
      Ascii.eqb "/" c && all_chars not_question (String c' t)
  | _ => false
  end.

(** What [parseUrl] returns. *)
Record parsed (u : UrlObject) : Prop := Parsed {
  parsed_protocol : all_chars word (protocol u) = true ∧ protocol u ≠ "";
  parsed_authority : all_chars not_slash_question (authority u) = true;
  parsed_path : path u = "/" ∨ explicit_path (path u) = true;
  parsed_params :
    params u = []
    ∨ ∃ q, q ≠ "" ∧ all_chars dot q = true ∧ params u = split "&" q
}.

(** The path ends in [.png] or [.jpg], optionally followed by digits. *)
Definition image_extension_suffix (p : string) : Prop :=
  ∃ pre ext digits,
    p = pre +:+ ext +:+ digits
    ∧ (ext = ".png" ∨ ext = ".jpg")
    ∧ all_chars digit digits = true.

(** The same, decided: [s] is an extension and digits, and some suffix of
    [p] is. *)
Definition image_extension_at (s : string) : bool :=
  match s with
  | String c0 (String c1 (String c2 (String c3 t))) =>
      let ext := String c0 (String c1 (String c2 (String c3 ""))) in
      (String.eqb ext ".png" || String.eqb ext ".jpg") && all_chars digit t
  | _ => false
  end.

Fixpoint ends_with_image_extension (p : string) : bool :=
  image_extension_at p
  || match p with
     | String _ t => ends_with_image_extension t
     | EmptyString => false
     end.

(** What the substitution of the temporary token does to one param. *)
Definition substituteTempAccessToken (cfg : config) (param : string) : string :=
  if starts_with "access_token=tk." param
  then "access_token=" +:+ or_empty (ACCESS_TOKEN cfg)
  else param.

(** The day-of-month test and the elapsed-time test of the once-per-day
    rule. *)
Definition same_day_of_month (getDate : Z → option Z) (a b : Z) : Prop :=
  ∃ d, getDate a = Some d ∧ getDate b = Some d.

(** ** Sample inputs *)

Definition sample_config : config :=
  {| API_URL := "https://api.mapbox.com";
     EVENTS_URL := "https://events.mapbox.com/events/v2";
     REQUIRE_ACCESS_TOKEN := true;
     ACCESS_TOKEN := Some "pk.KEY" |}.

Definition sample_browser : browser :=
  {| devicePixelRatio := 1; supportsWebp := false |}.

(** A platform whose storage is available and whose [validateUuid] accepts
    every identifier, and a store that holds a record. *)
Definition always_available : string → bool := λ _, true.

Definition no_uuid_check : option string → bool := λ _, true.

Definition sample_anonId : string := "4fd5b853-9a4b-4a07-8f49-0a0a4c0b9d3e".

Definition sample_store (t : Z) : gmap string TurnstileData :=
  {[ turnstileKey := {| lastSuccess := Some t; anonId := Some sample_anonId |} ]}.

(** A configuration whose events URL has no scheme. *)
Definition bad_events_config : config :=
  {| API_URL := "https://api.mapbox.com";
     EVENTS_URL := "events.mapbox.com/events/v2";
     REQUIRE_ACCESS_TOKEN := true;
     ACCESS_TOKEN := Some "pk.KEY" |}.

(** A configuration whose API base URL has no scheme. *)
Definition bad_api_config : config :=
  {| API_URL := "api.mapbox.com";
     EVENTS_URL := "https://events.mapbox.com/events/v2";
     REQUIRE_ACCESS_TOKEN := true;
     ACCESS_TOKEN := None |}.

(** * Properties *)

Example parseUrl_sample :
  parseUrl "https://api.mapbox.com/v4/a.json?secure&x=1" =
  Return (mkUrlObject "https" "api.mapbox.com" "/v4/a.json" ["secure"; "x=1"]).
Proof. vm_compute. reflexivity. Qed.

Example parseUrl_bare :
  parseUrl "mapbox://tileset" = Return (mkUrlObject "mapbox" "tileset" "/" []).
Proof. vm_compute. reflexivity. Qed.

Example parseUrl_relative : parseUrl "sprites/icons" = Throw MalformedURLError.
Proof. vm_compute. reflexivity. Qed.

(** ** Strings *)

Lemma append_empty_r (s : string) : s +:+ "" = s.
Proof. induction s as [|c s IH]; simpl; [done | by rewrite IH]. Qed.

Lemma append_assoc (a b c : string) : (a +:+ b) +:+ c = a +:+ (b +:+ c).
Proof. induction a as [|x a IH]; simpl; [done | by rewrite IH]. Qed.

Lemma length_append (a b : string) :
  String.length (a +:+ b) = String.length a + String.length b.
Proof. induction a as [|x a IH]; simpl; [done | by rewrite IH]. Qed.

Lemma substring_prefix (a b : string) :
  substring 0 (String.length a) (a +:+ b) = a.
Proof.
  induction a as [|x a IH]; simpl.
  - by destruct b.
  - by rewrite IH.
Qed.

Lemma consumed_append (a b : string) : consumed (a +:+ b) b = a.
Proof.
  unfold consumed. rewrite length_append.
  replace (String.length a + String.length b - String.length b)
    with (String.length a) by lia.
  apply substring_prefix.
Qed.

Lemma take_drop (p : ascii → bool) (s : string) :
  take_while p s +:+ drop_while p s = s.
Proof.
  induction s as [|c s IH]; simpl; [done|].
  destruct (p c); simpl; [by rewrite IH | done].
Qed.

Lemma all_chars_take (p : ascii → bool) (s : string) :
  all_chars p (take_while p s) = true.
Proof.
  induction s as [|c s IH]; simpl; [done|].
  destruct (p c) eqn:E; simpl; [by rewrite E | done].
Qed.

Lemma stops_drop (p : ascii → bool) (s : string) :
  stops p (drop_while p s) = true.
Proof.
  induction s as [|c s IH]; simpl; [done|].
  destruct (p c) eqn:E; simpl; [done | by rewrite E].
Qed.

Lemma take_while_append (p : ascii → bool) (a b : string) :
  all_chars p a = true → stops p b = true → take_while p (a +:+ b) = a.
Proof.
  intros Ha Hb. induction a as [|c a IH]; simpl in *.
  - destruct b as [|c b]; simpl in *; [done|].
    by destruct (p c).
  - apply andb_true_iff in Ha as [-> Ha]. by rewrite IH.
Qed.

Lemma drop_while_append (p : ascii → bool) (a b : string) :
  all_chars p a = true → stops p b = true → drop_while p (a +:+ b) = b.
Proof.
  intros Ha Hb. induction a as [|c a IH]; simpl in *.
  - destruct b as [|c b]; simpl in *; [done|].
    by destruct (p c).
  - apply andb_true_iff in Ha as [-> Ha]. by rewrite IH.
Qed.

Lemma consumed_drop (p : ascii → bool) (s : string) :
  consumed s (drop_while p s) = take_while p s.
Proof. rewrite <- (take_drop p s) at 1. apply consumed_append. Qed.

Lemma consumed_drop_1 (p : ascii → bool) (c : ascii) (s : string) :
  consumed (String c s) (drop_while p s) = String c (take_while p s).
Proof.
  rewrite <- (take_drop p s) at 1.
  apply (consumed_append (String c (take_while p s))).
Qed.

Lemma consumed_drop_2 (p : ascii → bool) (c d : ascii) (s : string) :
  consumed (String c (String d s)) (drop_while p s)
  = String c (String d (take_while p s)).
Proof.
  rewrite <- (take_drop p s) at 1.
  apply (consumed_append (String c (String d (take_while p s)))).
Qed.

(** ** The matcher on character classes *)

Lemma star_greedy (p : ascii → bool) (s : string) k r :
  k (drop_while p s) = Some r → star p s k = Some r.
Proof.
  induction s as [|c s IH]; simpl; [done|].
  destruct (p c); [|done]. intros H. by rewrite (IH H).
Qed.

Lemma star_no_backtrack (p : ascii → bool) (s : string) k :
  (∀ c t, p c = true → k (String c t) = None) →
  star p s k = k (drop_while p s).
Proof.
  intros Hk. induction s as [|c s IH]; simpl; [done|].
  destruct (p c) eqn:E; [|done].
  rewrite IH. destruct (k (drop_while p s)) eqn:E'; [done|].
  by apply Hk.
Qed.

Lemma star_inv (p : ascii → bool) (s : string) k r :
  star p s k = Some r →
  ∃ a b, s = a +:+ b ∧ all_chars p a = true ∧ k b = Some r.
Proof.
  revert r. induction s as [|c s IH]; simpl; intros r H.
  - by exists "", "".
  - destruct (p c) eqn:E.
    + destruct (star p s k) eqn:E'.
      * destruct (IH _ eq_refl) as (a & b & -> & Ha & Hb).
        exists (String c a), b. simpl. rewrite E, Ha. by simplify_eq.
      * by exists "", (String c s).
    + by exists "", (String c s).
Qed.

(** ** [urlRe] is a scan from the left *)

Lemma word_not_colon c : word c = true → Ascii.eqb ":" c = false.
Proof.
  intros H. destruct (Ascii.eqb_spec ":" c) as [<-|]; [|done].
  vm_compute in H. done.
Qed.

Lemma matcher_Bol_fail input r s caps k :
  String.length s ≠ String.length input →
  matcher input (Seq Bol r) s caps k = None.
Proof.
  intros H. cbn [matcher].
  by destruct (Nat.eqb_spec (String.length s) (String.length input)).
Qed.

(** The pattern is anchored: it matches at index 0 or nowhere. *)
Lemma exec_from_not_start input i s :
  String.length s < String.length input → exec_from input urlRe i s = None.
Proof.
  revert i. induction s as [|c s IH]; intros i H;
    cbn [exec_from urlRe Cat foldr]; rewrite matcher_Bol_fail by lia.
  - done.
  - apply IH. simpl in H. lia.
Qed.

Lemma matcher_query input s caps :
  matcher input (Seq (Opt (Group 4 (Plus dot))) Empty) s caps accept
  = Some (drop_while dot s, with_capture 4 (Some (take_while dot s)) caps).
Proof.
  cbn [matcher]. destruct s as [|c t]; [done|].
  cbn [take_while drop_while]. destruct (dot c) eqn:E; [|done].
  erewrite star_greedy; [|reflexivity].
  by rewrite consumed_drop_1.
Qed.

Lemma matcher_opt_char input c r s caps k :
  (∀ s', is_Some (matcher input r s' caps k)) →
  matcher input (Seq (Opt (Char c)) r) s caps k
  = matcher input r (match s with
                     | String c' t => if Ascii.eqb c c' then t else s
                     | EmptyString => s
                     end) caps k.
Proof.
  intros Hk. cbn [matcher]. destruct s as [|c' t]; [done|].
  destruct (Ascii.eqb c c'); [|done].
  by destruct (Hk t) as [st ->].
Qed.

Lemma matcher_path input r s caps k :
  (∀ s' caps', is_Some (matcher input r s' caps' k)) →
  matcher input
    (Seq (Opt (Group 3 (Seq (Char "/") (Plus (none_of ["?"%char]))))) r)
    s caps k
  = matcher input r (scan_path s).2
      (with_capture 3 (scan_path s).1 caps) k.
Proof.
  intros Hk. cbn [matcher]. unfold scan_path.
  destruct s as [|c t]; [done|].
  destruct (Ascii.eqb "/" c); [|done].
  destruct t as [|c' t']; [done|].
  fold not_question. destruct (not_question c'); [|done].
  cbn [fst snd with_capture].
  rewrite <- consumed_drop_2.
  destruct (Hk (drop_while not_question t')
              (set_capture 3 (consumed (String c (String c' t'))
                                (drop_while not_question t')) caps))
    as [st Hst].
  erewrite star_greedy; [|exact Hst]. by rewrite Hst.
Qed.

Lemma matcher_authority input r s caps k :
  (∀ s' caps', is_Some (matcher input r s' caps' k)) →
  matcher input (Seq (Group 2 (Star (none_of ["/"; "?"]%char))) r) s caps k
  = matcher input r (drop_while not_slash_question s)
      (set_capture 2 (take_while not_slash_question s) caps) k.
Proof.
  intros Hk. cbn [matcher]. fold not_slash_question.
  rewrite <- consumed_drop.
  destruct (Hk (drop_while not_slash_question s)
              (set_capture 2 (consumed s (drop_while not_slash_question s))
                 caps)) as [st Hst].
  erewrite star_greedy; [|exact Hst]. by rewrite Hst.
Qed.

Lemma matcher_separator input r s caps k :
  matcher input (Seq (Lit "://") r) s caps k
  = match strip_prefix "://" s with
    | Some s' => matcher input r s' caps k
    | None => None
    end.
Proof.
  cbn [matcher Lit strip_prefix].
  destruct s as [|a [|b [|c s]]]; try done;
    repeat (match goal with |- context [Ascii.eqb ?x ?y] =>
                              destruct (Ascii.eqb x y) end; try done).
Qed.

Lemma matcher_scheme input r s caps k :
  matcher input (Seq (Group 1 (Plus word)) (Seq (Lit "://") r)) s caps k
  = match s with
    | String c t =>
        if word c
        then matcher input (Seq (Lit "://") r) (drop_while word t)
               (set_capture 1 (String c (take_while word t)) caps) k
        else None
    | EmptyString => None
    end.
Proof.
  destruct s as [|c t]; [done|].
  change (matcher input (Seq (Group 1 (Plus word)) (Seq (Lit "://") r))
            (String c t) caps k)
    with (if word c
          then star word t
                 (λ s1, matcher input (Seq (Lit "://") r) s1
                          (set_capture 1 (consumed (String c t) s1) caps) k)
          else None).
  destruct (word c); [|done].
  rewrite star_no_backtrack.
  - by rewrite consumed_drop_1.
  - intros c' t' Hc'. rewrite matcher_separator. cbn [strip_prefix].
    by rewrite (word_not_colon _ Hc').
Qed.

Lemma matcher_tail input s caps :
  matcher input (Cat [ Opt (Char "?"); Opt (Group 4 (Plus dot)) ]) s caps accept
  = Some (drop_while dot (skip_question s),
          with_capture 4 (Some (take_while dot (skip_question s))) caps).
Proof.
  cbn [Cat foldr]. rewrite matcher_opt_char.
  - apply matcher_query.
  - intros s'. rewrite matcher_query. eauto.
Qed.

Lemma matcher_urlRe url :
  matcher url urlRe url no_captures accept
  = match take_while word url, strip_prefix "://" (drop_while word url) with
    | String _ _, Some r2 =>
        Some (drop_while dot
                (skip_question
                   (scan_path (drop_while not_slash_question r2)).2),
              url_captures url r2)
    | _, _ => None
    end.
Proof.
  cbn [urlRe Cat foldr].
  change (matcher url (Seq Bol ?r) url no_captures accept)
    with (if Nat.eqb (String.length url) (String.length url)
          then matcher url r url no_captures accept else None).
  rewrite Nat.eqb_refl, matcher_scheme.
  destruct url as [|c t]; [done|]. cbn [take_while drop_while].
  destruct (word c) eqn:Hc; [|done].
  rewrite matcher_separator.
  destruct (strip_prefix "://" (drop_while word t)) as [r2|]; [|done].
  assert (Htail : ∀ s caps,
    matcher (String c t)
      (Seq (Opt (Char "?")) (Seq (Opt (Group 4 (Plus dot))) Empty)) s caps accept
    = Some (drop_while dot (skip_question s),
          with_capture 4 (Some (take_while dot (skip_question s))) caps))
    by apply matcher_tail.
  rewrite matcher_authority, matcher_path, Htail.
  - unfold url_captures. cbn [take_while]. by rewrite Hc.
  - intros ??. rewrite Htail. eauto.
  - intros ??. rewrite matcher_path, Htail; [eauto|].
    intros ??. rewrite Htail. eauto.
Qed.

Lemma parseUrl_scan url : parseUrl url = scanUrl url.
Proof.
  unfold parseUrl, scanUrl, exec.
  assert (exec_from url urlRe 0 url
          = match matcher url urlRe url no_captures accept with
            | Some (s1, caps1) =>
                Some {| index := 0;
                        parts := λ n, match n with
                                      | O => Some (consumed url s1)
                                      | S _ => caps1 n
                                      end;
                        after := s1 |}
            | None => None
            end) as ->.
  { destruct url as [|c t]; cbn [exec_from]; fold accept;
      destruct (matcher _ urlRe _ no_captures accept) as [[??]|]; try done.
    apply exec_from_not_start. simpl. lia. }
  rewrite matcher_urlRe.
  destruct (take_while word url) as [|c scheme] eqn:Escheme; [done|].
  destruct (strip_prefix "://" (drop_while word url)) as [r2|]; [|done].
  f_equal. unfold url_captures. cbn [parts]. rewrite Escheme.
  destruct (scan_path (drop_while not_slash_question r2)) as [[[|??]|] r4] eqn:Epath;
  cbn [fst snd];
  destruct (take_while dot (skip_question r4)) as [|??];
  try reflexivity;
  unfold scan_path in Epath; repeat case_match; simplify_eq.
Qed.

(** ** [split] and [join] *)

Lemma split_cons sep s : ∃ h t, split sep s = h :: t.
Proof.
  induction s as [|c s (h & t & IH)]; simpl; [by eauto|].
  destruct (Ascii.eqb c sep); [by eauto|]. rewrite IH. eauto.
Qed.

Lemma join_cons sep x h t :
  join sep (x :: h :: t) = x +:+ sep +:+ join sep (h :: t).
Proof. done. Qed.

Lemma join_split s : join "&" (split "&" s) = s.
Proof.
  induction s as [|c s IH]; cbn [split]; [done|].
  destruct (split_cons "&" s) as (h & t & E). rewrite E in *.
  destruct (Ascii.eqb_spec c "&") as [->|_]; rewrite ?join_cons, ?IH; [done|].
  destruct t as [|h' t]; [simpl in *; by rewrite IH|].
  rewrite join_cons in *. rewrite <- IH. done.
Qed.

(** ** What the parser returns *)

Lemma strip_prefix_Some p s r : strip_prefix p s = Some r → s = p +:+ r.
Proof.
  revert s. induction p as [|a p IH]; intros [|b s]; simpl; try congruence.
  destruct (Ascii.eqb_spec a b) as [->|]; [|done].
  intros H. by rewrite (IH _ H).
Qed.

Lemma strip_prefix_append p r : strip_prefix p (p +:+ r) = Some r.
Proof.
  induction p as [|a p IH]; simpl; [by destruct r|].
  by rewrite Ascii.eqb_refl.
Qed.

Lemma scan_path_explicit r p :
  (scan_path r).1 = Some p → explicit_path p = true.
Proof.
  unfold scan_path. destruct r as [|c [|c' t]]; cbn [fst].
  - done.
  - by destruct (Ascii.eqb "/" c).
  - destruct (Ascii.eqb "/" c) eqn:E; [|done].
    destruct (not_question c') eqn:E'; [|done].
    intros [= <-]. cbn [explicit_path all_chars].
    by rewrite E, E', all_chars_take.
Qed.

Lemma parseUrl_parsed url u : parseUrl url = Return u → parsed u.
Proof.
  rewrite parseUrl_scan. unfold scanUrl.
  destruct (take_while word url) as [|c scheme] eqn:Es; [done|].
  destruct (strip_prefix "://" (drop_while word url)) as [r2|]; [|done].
  intros [= <-]. split; cbn [protocol authority path params].
  - rewrite <- Es. split; [apply all_chars_take | by rewrite Es].
  - apply all_chars_take.
  - destruct (scan_path _).1 as [p|] eqn:Ep; [|by left].
    right. by eapply scan_path_explicit.
  - destruct (take_while dot _) as [|c' q] eqn:Eq; [by left|].
    right. exists (String c' q). split; [done|]. split; [|done].
    rewrite <- Eq. apply all_chars_take.
Qed.

Lemma parseUrl_result url :
  parseUrl url = Throw MalformedURLError ∨ ∃ u, parseUrl url = Return u.
Proof.
  rewrite parseUrl_scan. unfold scanUrl.
  destruct (take_while word url); [by left|].
  destruct (strip_prefix "://" _); [right; eauto | by left].
Qed.

Lemma parseUrl_grammar url :
  (∃ u, parseUrl url = Return u) ↔ url_grammar url.
Proof.
  rewrite parseUrl_scan. unfold scanUrl. split.
  - intros [u H].
    destruct (take_while word url) as [|c scheme] eqn:Es; [done|].
    destruct (strip_prefix "://" (drop_while word url)) as [r2|] eqn:Er;
      [|done].
    exists (String c scheme), r2. split; [done|]. split.
    + rewrite <- Es. apply all_chars_take.
    + rewrite <- (take_drop word url) at 1.
      by rewrite Es, (strip_prefix_Some _ _ _ Er).
  - intros (scheme & rest & Hne & Hw & ->).
    rewrite take_while_append, drop_while_append by done.
    rewrite (strip_prefix_append "://" rest).
    destruct scheme; [done | eauto].
Qed.

Lemma parseUrl_throws url :
  parseUrl url = Throw MalformedURLError ↔ ¬ url_grammar url.
Proof.
  rewrite <- parseUrl_grammar. split.
  - intros -> [u ?]. done.
  - intros H. destruct (parseUrl_result url) as [|[u Hu]]; [done|].
    destruct H. eauto.
Qed.

(** ** Formatting and parsing again *)

Lemma formatUrl_eq u :
  formatUrl u
  = protocol u +:+ "://" +:+ authority u +:+ path u +:+ query_suffix (params u).
Proof. done. Qed.

Lemma stops_query_suffix ps : stops not_question (query_suffix ps) = true.
Proof. by destruct ps. Qed.

Lemma scan_path_format pth ps :
  pth = "/" ∨ explicit_path pth = true →
  scan_path (pth +:+ query_suffix ps)
  = (if explicit_path pth then Some pth else None,
     if explicit_path pth then query_suffix ps else pth +:+ query_suffix ps).
Proof.
  intros [->|H].
  - by destruct ps.
  - rewrite H. destruct pth as [|c [|c' t]]; try done.
    cbn [explicit_path all_chars] in H. apply andb_true_iff in H as [Hc H].
    apply andb_true_iff in H as [Hc' Ht].
    cbn [String.append scan_path]. rewrite Hc, Hc'.
    by rewrite take_while_append, drop_while_append
      by auto using stops_query_suffix.
Qed.

Lemma scanUrl_format u :
  all_chars word (protocol u) = true → protocol u ≠ "" →
  all_chars not_slash_question (authority u) = true →
  path u = "/" ∨ explicit_path (path u) = true →
  ∃ ps, scanUrl (formatUrl u)
        = Return {| protocol := protocol u; authority := authority u;
                    path := path u; params := ps |}
        ∧ (explicit_path (path u) = true →
           ps = let q := take_while dot (skip_question (query_suffix (params u))) in
                match q with String _ _ => split "&" q | EmptyString => [] end).
Proof.
  intros Hp Hne Ha Hpath. rewrite formatUrl_eq. unfold scanUrl.
  rewrite take_while_append, drop_while_append by done.
  rewrite (strip_prefix_append "://").
  assert (stops not_slash_question (path u +:+ query_suffix (params u)) = true)
    as Hstop.
  { destruct Hpath as [->|H]; [done|].
    destruct (path u) as [|c [|c' t]]; try done.
    cbn [explicit_path] in H. apply andb_true_iff in H as [Hc _].
    apply Ascii.eqb_eq in Hc. by subst c. }
  rewrite take_while_append, drop_while_append by done.
  rewrite scan_path_format by done.
  destruct (protocol u) as [|c scheme] eqn:E; [done|].
  eexists. split.
  - f_equal. f_equal. destruct Hpath as [-> | ->]; done.
  - intros ->. done.
Qed.
Lemma take_while_all p s : all_chars p s = true → take_while p s = s.
Proof.
  intros H. rewrite <- (append_empty_r s) at 1.
  by apply take_while_append.
Qed.

Lemma query_suffix_split q :
  query_suffix (split "&" q) = "?" +:+ q.
Proof.
  destruct (split_cons "&" q) as (h & t & E).
  unfold query_suffix. rewrite <- (join_split q) at 2. by rewrite E.
Qed.

Lemma parsed_roundtrip u :
  parsed u → path u ≠ "/" → parseUrl (formatUrl u) = Return u.
Proof.
  intros [[Hp Hne] Ha Hpath Hq] Hroot.
  destruct Hpath as [|Hpath]; [done|].
  destruct (scanUrl_format u) as (ps & E & Hps); auto.
  rewrite parseUrl_scan, E. specialize (Hps Hpath).
  destruct u as [pr au pa qs]. cbn [protocol authority path params] in *.
  f_equal. f_equal. subst ps. destruct Hq as [->|(q & Hq & Hdot & ->)].
  - done.
  - rewrite query_suffix_split. cbn [String.append skip_question].
    rewrite Ascii.eqb_refl, take_while_all by done.
    by destruct q.
Qed.

Lemma scanUrl_format_root u :
  all_chars word (protocol u) = true → protocol u ≠ "" →
  all_chars not_slash_question (authority u) = true →
  path u = "/" →
  scanUrl (formatUrl u)
  = Return {| protocol := protocol u; authority := authority u; path := "/";
              params := split "&" (String "/" (take_while dot
                                      (query_suffix (params u)))) |}.
Proof.
  intros Hp Hne Ha Hpath. rewrite formatUrl_eq, Hpath. unfold scanUrl.
  rewrite take_while_append, drop_while_append by done.
  rewrite (strip_prefix_append "://").
  rewrite take_while_append, drop_while_append by done.
  destruct (protocol u) as [|c scheme] eqn:E; [done|].
  destruct (params u) as [|h t]; [done|].
  unfold query_suffix. done.
Qed.

Lemma split_nonempty sep s : split sep s ≠ [].
Proof. by destruct (split_cons sep s) as (h & t & ->). Qed.

Lemma parsed_root_no_roundtrip u :
  parsed u → path u = "/" → parseUrl (formatUrl u) ≠ Return u.
Proof.
  intros [[Hp Hne] Ha _ Hq] Hroot.
  rewrite parseUrl_scan, scanUrl_format_root by done.
  destruct u as [pr au pa qs]. cbn [protocol authority path params] in *.
  intros E.
  apply (f_equal (λ c, match c with Return v => params v | Throw _ => [] end))
    in E.
  cbn [params] in E. destruct Hq as [->|(q & Hq & Hdot & ->)].
  - by apply split_nonempty in E.
  - rewrite query_suffix_split in E.
    cbn [String.append take_while dot] in E.
    change (dot "?") with true in E. cbv iota in E.
    rewrite take_while_all in E by done.
    apply (f_equal (join "&")) in E. rewrite !join_split in E.
    apply (f_equal String.length) in E. simpl in E. lia.
Qed.
(** ** [imageExtensionRe] *)

Lemma matcher_imageExtensionRe input s st :
  matcher input imageExtensionRe s no_captures accept = Some st →
  ∃ ext digits,
    s = ext +:+ digits ∧ (ext = ".png" ∨ ext = ".jpg")
    ∧ all_chars digit digits = true.
Proof.
  cbn [matcher imageExtensionRe Cat foldr Lit].
  destruct s as [|c0 [|c1 [|c2 [|c3 s]]]];
    repeat (match goal with
            | |- context [Ascii.eqb ?x ?y] =>
                destruct (Ascii.eqb_spec x y); subst
            end; try done).
  all: intros H; try done.
  all: match type of H with
       | match star _ _ _ with _ => _ end = _ =>
           destruct (star _ _ _) eqn:E in H; [clear H|done]
       | _ => rename H into E
       end.
  all: apply star_inv in E as (a & b & -> & Ha & Hb).
  all: destruct b; [|done]; rewrite append_empty_r.
  - exists ".png", a. auto.
  - exists ".jpg", a. auto.
Qed.

Lemma exec_from_inv input r i s m :
  exec_from input r i s = Some m →
  ∃ pre s' st, s = pre +:+ s'
    ∧ matcher input r s' no_captures accept = Some st.
Proof.
  revert i. induction s as [|c s IH]; intros i; cbn [exec_from]; fold accept.
  - destruct (matcher input r "" no_captures accept) as [st|] eqn:E; [|done].
    intros _. by exists "", "", st.
  - destruct (matcher input r (String c s) no_captures accept) as [st|] eqn:E.
    + intros _. by exists "", (String c s), st.
    + intros (pre & s' & st & -> & H)%IH. by exists (String c pre), s', st.
Qed.

Lemma exec_imageExtensionRe_None p :
  ¬ image_extension_suffix p → exec imageExtensionRe p = None.
Proof.
  intros Hno. destruct (exec imageExtensionRe p) as [m|] eqn:E; [|done].
  destruct Hno. apply exec_from_inv in E as (pre & s' & st & -> & H).
  apply matcher_imageExtensionRe in H as (ext & digits & -> & Hext & Hd).
  by exists pre, ext, digits.
Qed.

Lemma replace_imageExtensionRe_id template p :
  ¬ image_extension_suffix p → replace imageExtensionRe template p = p.
Proof. intros H. unfold replace. by rewrite exec_imageExtensionRe_None. Qed.

(** ** [replaceTempAccessToken] *)

Lemma replaceTempAccessToken_from_spec cfg fuel i (ps : list string) :
  i + fuel = length ps →
  replaceTempAccessToken_from cfg fuel i ps
  = take i ps ++ (substituteTempAccessToken cfg <$> drop i ps).
Proof.
  revert i ps. induction fuel as [|fuel IH]; intros i ps Hlen;
    cbn [replaceTempAccessToken_from].
  - rewrite drop_ge, take_ge by lia. by rewrite app_nil_r.
  - destruct (lookup_lt_is_Some_2 ps i) as [p Hp]; [lia|].
    rewrite Hp, (drop_S _ _ _ Hp), fmap_cons.
    assert (substituteTempAccessToken cfg p
            = if starts_with "access_token=tk." p
              then "access_token=" +:+ or_empty (ACCESS_TOKEN cfg) else p)
      as -> by done.
    destruct (starts_with "access_token=tk." p).
    + rewrite IH by (rewrite length_insert; lia).
      rewrite drop_insert_lt by lia.
      erewrite take_S_r by (apply list_lookup_insert_eq; lia).
      rewrite take_insert_ge by lia. by rewrite <- app_assoc.
    + rewrite IH by lia. rewrite (take_S_r _ _ _ Hp). by rewrite <- app_assoc.
Qed.

Lemma replaceTempAccessToken_map cfg (ps : list string) :
  replaceTempAccessToken cfg ps = substituteTempAccessToken cfg <$> ps.
Proof.
  unfold replaceTempAccessToken.
  by rewrite replaceTempAccessToken_from_spec.
Qed.
(** ** The decided predicates *)

Lemma starts_with_strip p s :
  starts_with p s = true ↔ ∃ r, strip_prefix p s = Some r.
Proof.
  revert s. induction p as [|a p IH]; intros [|b s]; simpl;
    try (split; [eauto | done]); try (split; [done | by intros [? ?]]).
  destruct (Ascii.eqb a b); simpl; [apply IH|].
  split; [done | by intros [? ?]].
Qed.

Lemma matches_url_grammar_spec url :
  matches_url_grammar url = true ↔ url_grammar url.
Proof.
  rewrite <- parseUrl_grammar, parseUrl_scan.
  unfold matches_url_grammar, scanUrl.
  destruct (take_while word url); [split; [done | by intros [? ?]]|].
  rewrite starts_with_strip.
  destruct (strip_prefix "://" _); split; eauto; by intros [? ?].
Qed.

Lemma parseUrl_malformed url :
  matches_url_grammar url = false → parseUrl url = Throw MalformedURLError.
Proof.
  intros H. apply parseUrl_throws. rewrite <- matches_url_grammar_spec.
  by rewrite H.
Qed.

Lemma image_extension_at_spec s :
  image_extension_at s = true ↔
  ∃ ext digits, s = ext +:+ digits ∧ (ext = ".png" ∨ ext = ".jpg")
                ∧ all_chars digit digits = true.
Proof.
  split.
  - destruct s as [|c0 [|c1 [|c2 [|c3 t]]]]; try done.
    cbn [image_extension_at]. intros [He Hd]%andb_true_iff.
    apply orb_true_iff in He as [He|He]; apply String.eqb_eq in He;
      injection He as -> -> -> ->; [exists ".png", t | exists ".jpg", t]; auto.
  - intros (ext & digits & -> & [-> | ->] & Hd); cbn; by rewrite Hd.
Qed.

Lemma ends_with_image_extension_spec p :
  ends_with_image_extension p = true ↔ image_extension_suffix p.
Proof.
  unfold image_extension_suffix. split.
  - induction p as [|c p IH]; cbn [ends_with_image_extension];
      intros [H|H]%orb_true_iff; try done.
    + apply image_extension_at_spec in H as (ext & digits & ? & ? & ?).
      by exists "", ext, digits.
    + destruct (IH H) as (pre & ext & digits & -> & ? & ?).
      by exists (String c pre), ext, digits.
  - intros (pre & ext & digits & -> & Hext & Hd).
    induction pre as [|c pre IH].
    + assert (image_extension_at (ext +:+ digits) = true) as H
        by (apply image_extension_at_spec; eauto).
      destruct (ext +:+ digits); cbn [ends_with_image_extension String.append];
        by rewrite H.
    + cbn [ends_with_image_extension String.append]. rewrite IH.
      apply orb_true_r.
Qed.

Lemma replace_without_image_extension template p :
  ends_with_image_extension p = false →
  replace imageExtensionRe template p = p.
Proof.
  intros H. apply replace_imageExtensionRe_id.
  rewrite <- ends_with_image_extension_spec. by rewrite H.
Qed.

(** ** Elapsed days *)

Lemma daysElapsed_eq now t : daysElapsed now t = ((now - t) * 1 # 1 * 86400000)%Q.
Proof. reflexivity. Qed.

Lemma daysElapsed_nonneg now t :
  Qle_bool 0 (daysElapsed now t) = true ↔ (t ≤ now)%Z.
Proof.
  rewrite daysElapsed_eq. unfold Qle_bool. cbn [Qnum Qden].
  rewrite Z.leb_le. lia.
Qed.

Lemma daysElapsed_lt_1 now t :
  Qlt_bool (daysElapsed now t) 1 = true ↔ (now - t < msPerDay)%Z.
Proof.
  rewrite daysElapsed_eq. unfold Qlt_bool, Qle_bool, msPerDay.
  cbn [Qnum Qden]. rewrite negb_true_iff, Z.leb_gt. lia.
Qed.

Lemma daysElapsed_Qle now t :
  (0 <= daysElapsed now t)%Q ↔ (t ≤ now)%Z.
Proof. by rewrite <- Qle_bool_iff, daysElapsed_nonneg. Qed.

Lemma daysElapsed_Qlt now t :
  (daysElapsed now t < 1)%Q ↔ (now - t < msPerDay)%Z.
Proof.
  rewrite <- daysElapsed_lt_1. unfold Qlt_bool.
  rewrite negb_true_iff, <- not_true_iff_false, Qle_bool_iff.
  split; [apply Qlt_not_le | apply Qnot_le_lt].
Qed.

(** ** The once-per-day rule *)

Lemma same_date_spec getDate a b :
  same_date getDate a b = true ↔ same_day_of_month getDate a b.
Proof.
  unfold same_date, same_day_of_month.
  destruct (getDate a) as [x|], (getDate b) as [y|];
    try (split; [done | by intros (? & ? & ?)]).
  destruct (Z.eqb_spec x y) as [->|]; split; eauto; try done.
  intros (? & ? & ?). congruence.
Qed.

Lemma sameDayPing_spec getDate now t :
  sameDayPing getDate now t = true
  ↔ same_day_of_month getDate t now
    ∧ (0 <= daysElapsed now t)%Q ∧ (daysElapsed now t < 1)%Q.
Proof.
  unfold sameDayPing.
  rewrite !andb_true_iff, same_date_spec, daysElapsed_nonneg,
    daysElapsed_lt_1, daysElapsed_Qle, daysElapsed_Qlt.
  tauto.
Qed.

(** When the probe under the name that the source passes answers [false],
    the store is not read, and no call with a configured token returns
    early. *)
Lemma postTurnstileEvent_unavailable storageAvailable validateUuid version
    getDate cfg localStorage uuid now sent :
  storageAvailable "localSotorage" = false →
  truthy (ACCESS_TOKEN cfg) = true →
  postTurnstileEvent storageAvailable validateUuid version getDate
    cfg localStorage uuid now sent ≠ Return None.
Proof.
  intros Hs Htok. unfold postTurnstileEvent. rewrite Hs, Htok. cbn.
  by destruct (parseUrl (EVENTS_URL cfg)).
Qed.

(** ** Tiles of a Mapbox source *)

Lemma isMapboxURL_truthy s :
  isMapboxURL s = true →
  negb (truthy (Some s)) || negb (isMapboxURL (or_empty (Some s))) = false.
Proof. intros H. cbn [or_empty]. rewrite H. by destruct s. Qed.

Lemma normalizeTileURL_mapbox cfg env tileURL sourceURL tileSize u :
  isMapboxURL sourceURL = true →
  parseUrl tileURL = Return u →
  ∃ template,
    normalizeTileURL cfg env tileURL (Some sourceURL) tileSize
    = Return (formatUrl
                {| protocol := protocol u; authority := authority u;
                   path := replace imageExtensionRe template (path u);
                   params := substituteTempAccessToken cfg <$> params u |}).
Proof.
  intros Hs Hu. unfold normalizeTileURL.
  rewrite (isMapboxURL_truthy _ Hs), Hu. cbn [mbind completion_bind].
  rewrite replaceTempAccessToken_map. eauto.
Qed.

(** ** The handler of the request *)

Lemma onreadystatechange_writes r readyState status now localStorage :
  onreadystatechange r readyState status now localStorage
  = if decide ((handler_localStorageAvailable r = true
                ∧ readyState = 4%Z ∧ status = 200%Z) ∨ status = 204%Z)
    then <[turnstileKey := {| lastSuccess := Some now;
                              anonId := Some (handler_anonId r) |}]> localStorage
    else localStorage.
Proof.
  unfold onreadystatechange.
  destruct (handler_localStorageAvailable r), (Z.eqb_spec readyState 4),
    (Z.eqb_spec status 200), (Z.eqb_spec status 204); simpl;
    case_decide as H; try done;
    first [ destruct H; by auto
          | destruct H as [(? & ? & ?)|?]; done ].
Qed.

(** * The claims *)

(** C1, as amended. With the API base [https://api.mapbox.com] and a
    required token, [normalizeStyleURL("mapbox://styles/foo/bar", "pk.ABC")]
    returns [https://api.mapbox.com/styles/v1/foo/bar?access_token=pk.ABC]:
    the authority [styles] of the locator is replaced by the API host, and
    only the path [/foo/bar] is put after [/styles/v1]. *)
Theorem C1_resolveStyle_example cfg :
  API_URL cfg = "https://api.mapbox.com" →
  REQUIRE_ACCESS_TOKEN cfg = true →
  normalizeStyleURL cfg "mapbox://styles/foo/bar" (Some "pk.ABC")
  = Return "https://api.mapbox.com/styles/v1/foo/bar?access_token=pk.ABC".
Proof.
  destruct cfg as [api ev req tok]. cbn [API_URL REQUIRE_ACCESS_TOKEN].
  intros -> ->. vm_compute. reflexivity.
Qed.

Lemma C1_resolveStyle_example_witness :
  API_URL sample_config = "https://api.mapbox.com"
  ∧ REQUIRE_ACCESS_TOKEN sample_config = true
  ∧ normalizeStyleURL sample_config "mapbox://styles/foo/bar" (Some "pk.ABC")
    = Return "https://api.mapbox.com/styles/v1/foo/bar?access_token=pk.ABC".
Proof.
  split; [reflexivity|]. split; [reflexivity|].
  apply (C1_resolveStyle_example sample_config); reflexivity.
Defined.

(** C1 as stated fails: under the stated configuration the result is not
    the string with [/styles/v1/styles/foo/bar]. *)
Lemma C1_resolveStyle_stated_fails :
  API_URL sample_config = "https://api.mapbox.com"
  ∧ REQUIRE_ACCESS_TOKEN sample_config = true
  ∧ normalizeStyleURL sample_config "mapbox://styles/foo/bar" (Some "pk.ABC")
    ≠ Return
        "https://api.mapbox.com/styles/v1/styles/foo/bar?access_token=pk.ABC".
Proof.
  split; [reflexivity|]. split; [reflexivity|]. vm_compute. discriminate.
Qed.

(** C2, the code at the failing input. When the status is 204 the handler
    writes the record at every [readyState], also before the request is
    done, and whether or not the storage was found available: the
    condition groups as [(available && DONE && 200) || 204]. *)
Theorem C2_write_on_204_in_any_state r readyState now localStorage :
  onreadystatechange r readyState 204 now localStorage !! turnstileKey
  = Some {| lastSuccess := Some now; anonId := Some (handler_anonId r) |}.
Proof.
  unfold onreadystatechange. rewrite orb_true_r. apply lookup_insert_eq.
Qed.

Section Gating.

Variable storageAvailable : string → bool.
Variable validateUuid : option string → bool.
Variable version : string.
Variable getDate : Z → option Z.

(** C3, as amended. When the record read from the store has a non-zero
    [lastSuccess] and an access token is configured, [postTurnstileEvent]
    returns before any request exactly when [lastSuccess] and now have the
    same day of the month and the elapsed days are in [0, 1); in every other
    such case, when the events URL parses, it sends the POST request to the
    events URL with the access token appended. *)
Theorem C3_gating cfg localStorage uuid now sent a t :
  truthy (ACCESS_TOKEN cfg) = true →
  retrieve (storageAvailable "localSotorage") localStorage = (a, Some t) →
  t ≠ 0%Z →
  (postTurnstileEvent storageAvailable validateUuid version getDate
     cfg localStorage uuid now sent = Return None
   ↔ same_day_of_month getDate t now
     ∧ (0 <= daysElapsed now t)%Q ∧ (daysElapsed now t < 1)%Q)
  ∧ ∀ u, parseUrl (EVENTS_URL cfg) = Return u →
      postTurnstileEvent storageAvailable validateUuid version getDate
        cfg localStorage uuid now sent ≠ Return None →
      ∃ r, postTurnstileEvent storageAvailable validateUuid version getDate
             cfg localStorage uuid now sent = Return (Some r)
           ∧ method r = "POST"
           ∧ url r = formatUrl
                       (push_param u ("access_token="
                                      +:+ or_empty (ACCESS_TOKEN cfg))).
Proof.
  intros Htok Hret Ht. unfold postTurnstileEvent.
  rewrite Htok, Hret. cbn [negb truthy_number number_or_zero].
  destruct (Z.eqb_spec t 0) as [|_]; [done|]. cbn [negb andb].
  rewrite <- sameDayPing_spec.
  destruct (sameDayPing getDate now t).
  - split; [done|]. by intros u _ H.
  - split.
    + split; [|done]. by destruct (parseUrl (EVENTS_URL cfg)).
    + intros u -> _. cbn. eauto.
Qed.

End Gating.

Lemma C3_gating_witness :
  truthy (ACCESS_TOKEN sample_config) = true
  ∧ retrieve (always_available "localSotorage") (sample_store 1793664000000)
    = (Some sample_anonId, Some 1793664000000%Z)
  ∧ 1793664000000%Z ≠ 0%Z
  ∧ postTurnstileEvent always_available no_uuid_check "0.45.0" utcGetDate
      sample_config (sample_store 1793664000000) "uuid" 1793667600000
      1793667600001 = Return None.
Proof.
  split; [reflexivity|]. split; [reflexivity|]. split; [done|].
  apply (C3_gating always_available no_uuid_check "0.45.0" utcGetDate
           sample_config (sample_store 1793664000000) "uuid" 1793667600000
           1793667600001 (Some sample_anonId) 1793664000000);
    [reflexivity | reflexivity | done |].
  split; [by exists 3%Z | split; vm_compute; done].
Defined.

(** C3 as stated fails twice: a stored [lastSuccess] of 0 counts as none,
    so that a call on the same day, less than a day later, still sends;
    and with an events URL that does not parse a call on another day
    raises the parse error and sends nothing. *)
Lemma C3_gating_stated_fails :
  (retrieve (always_available "localSotorage") (sample_store 0)
   = (Some sample_anonId, Some 0%Z)
   ∧ same_day_of_month utcGetDate 0 1000
   ∧ (0 <= daysElapsed 1000 0)%Q ∧ (daysElapsed 1000 0 < 1)%Q
   ∧ postTurnstileEvent always_available no_uuid_check "0.45.0" utcGetDate
       sample_config (sample_store 0) "uuid" 1000 1001 ≠ Return None)
  ∧
  (truthy (ACCESS_TOKEN bad_events_config) = true
   ∧ ¬ same_day_of_month utcGetDate 1793664000000 1793836800000
   ∧ postTurnstileEvent always_available no_uuid_check "0.45.0" utcGetDate
       bad_events_config (sample_store 1793664000000) "uuid" 1793836800000
       1793836800001
     = Throw MalformedURLError).
Proof.
  split.
  - split; [reflexivity|]. split; [by exists 1%Z|].
    split; [vm_compute; discriminate|]. split; [vm_compute; reflexivity|].
    vm_compute. discriminate.
  - split; [reflexivity|]. split.
    + intros (d & H1 & H2). vm_compute in H1, H2. congruence.
    + vm_compute. reflexivity.
Qed.

(** For every [UrlObject] that [parseUrl] returns, parsing the formatted
    value gives the value back exactly when its path is not ["/"], that is
    when the input had a path of a slash and at least one more character. *)
Lemma parseUrl_formatUrl url u :
  parseUrl url = Return u →
  (parseUrl (formatUrl u) = Return u ↔ path u ≠ "/").
Proof.
  intros Hu%parseUrl_parsed. split.
  - intros H Hroot. by apply (parsed_root_no_roundtrip u).
  - by apply parsed_roundtrip.
Qed.

Example parseUrl_formatUrl_sample :
  parseUrl (formatUrl (mkUrlObject "https" "api.mapbox.com" "/v4/a.json"
                         ["secure"; "x=1"]))
  = Return (mkUrlObject "https" "api.mapbox.com" "/v4/a.json"
              ["secure"; "x=1"]).
Proof.
  apply (parseUrl_formatUrl "https://api.mapbox.com/v4/a.json?secure&x=1");
    [vm_compute; reflexivity | discriminate].
Qed.

(** C4, the code at the failing input. The URL [https://api.mapbox.com]
    matches the grammar and parses to the path ["/"] and no params; the
    formatted value is [https://api.mapbox.com/], and parsing it gives the
    params [["/"]]: the path group needs a character after the slash, so
    the slash falls to the query group. Parsing after formatting is not
    the identity on this value. *)
Theorem C4_roundtrip_fails_without_path :
  parseUrl "https://api.mapbox.com"
  = Return (mkUrlObject "https" "api.mapbox.com" "/" [])
  ∧ formatUrl (mkUrlObject "https" "api.mapbox.com" "/" [])
    = "https://api.mapbox.com/"
  ∧ parseUrl "https://api.mapbox.com/"
    = Return (mkUrlObject "https" "api.mapbox.com" "/" ["/"])
  ∧ parseUrl (formatUrl (mkUrlObject "https" "api.mapbox.com" "/" []))
    ≠ Return (mkUrlObject "https" "api.mapbox.com" "/" []).
Proof. repeat split; vm_compute; congruence. Qed.

(** C5, as amended. For a custom-scheme locator that parses, an API base
    URL that parses and a required token: if the first character of the
    effective token (the override when it is non-empty, else the configured
    one) is [s], then the style, glyphs, source and sprite operations all
    throw the same secret-token error. *)
Theorem C5_secret_token cfg url format extension accessToken u api :
  isMapboxURL url = true →
  parseUrl url = Return u →
  parseUrl (API_URL cfg) = Return api →
  REQUIRE_ACCESS_TOKEN cfg = true →
  first_is "s" (or_empty (or_else accessToken (ACCESS_TOKEN cfg))) = true →
  normalizeStyleURL cfg url accessToken = Throw SecretTokenError
  ∧ normalizeGlyphsURL cfg url accessToken = Throw SecretTokenError
  ∧ normalizeSourceURL cfg url accessToken = Throw SecretTokenError
  ∧ normalizeSpriteURL cfg url format extension accessToken
    = Throw SecretTokenError.
Proof.
  intros Hm Hu Hapi Hreq Hs.
  assert (∀ o, makeAPIURL cfg o accessToken = Throw SecretTokenError) as Hmake.
  { intros o. unfold makeAPIURL. rewrite Hapi, Hreq, Hs. cbn.
    by destruct (or_else accessToken (ACCESS_TOKEN cfg)) as [[|??]|]. }
  unfold normalizeStyleURL, normalizeGlyphsURL, normalizeSourceURL,
    normalizeSpriteURL.
  rewrite Hm, Hu. cbn. by rewrite !Hmake.
Qed.

Lemma C5_secret_token_witness :
  isMapboxURL "mapbox://styles/u/s" = true
  ∧ parseUrl "mapbox://styles/u/s"
    = Return (mkUrlObject "mapbox" "styles" "/u/s" [])
  ∧ parseUrl (API_URL sample_config)
    = Return (mkUrlObject "https" "api.mapbox.com" "/" [])
  ∧ REQUIRE_ACCESS_TOKEN sample_config = true
  ∧ first_is "s" (or_empty (or_else (Some "sk.SECRET")
                              (ACCESS_TOKEN sample_config))) = true
  ∧ normalizeStyleURL sample_config "mapbox://styles/u/s" (Some "sk.SECRET")
    = Throw SecretTokenError
  ∧ normalizeGlyphsURL sample_config "mapbox://styles/u/s" (Some "sk.SECRET")
    = Throw SecretTokenError
  ∧ normalizeSourceURL sample_config "mapbox://styles/u/s" (Some "sk.SECRET")
    = Throw SecretTokenError
  ∧ normalizeSpriteURL sample_config "mapbox://styles/u/s" "@2x" ".png"
      (Some "sk.SECRET")
    = Throw SecretTokenError.
Proof.
  split; [reflexivity|]. split; [vm_compute; reflexivity|].
  split; [vm_compute; reflexivity|]. split; [reflexivity|].
  split; [reflexivity|].
  apply (C5_secret_token sample_config "mapbox://styles/u/s" "@2x" ".png"
           (Some "sk.SECRET") (mkUrlObject "mapbox" "styles" "/u/s" [])
           (mkUrlObject "https" "api.mapbox.com" "/" []));
    vm_compute; reflexivity.
Defined.

(** C5 as stated fails twice: a custom-scheme locator that the parser
    rejects, and an API base URL that the parser rejects, both make the
    call throw the parse error and not the secret-token error. *)
Lemma C5_secret_token_stated_fails :
  (isMapboxURL "mapbox:styles/u/s" = true
   ∧ REQUIRE_ACCESS_TOKEN sample_config = true
   ∧ normalizeStyleURL sample_config "mapbox:styles/u/s" (Some "sk.SECRET")
     = Throw MalformedURLError
   ∧ MalformedURLError ≠ SecretTokenError)
  ∧
  (isMapboxURL "mapbox://styles/u/s" = true
   ∧ REQUIRE_ACCESS_TOKEN bad_api_config = true
   ∧ normalizeStyleURL bad_api_config "mapbox://styles/u/s" (Some "sk.SECRET")
     = Throw MalformedURLError).
Proof. repeat split; vm_compute; congruence. Qed.

(** C6, as amended. On a [normalizeTileURL] call whose source URL is
    custom-scheme and whose tile URL parses, the result is the formatted
    URL whose params are those of the parsed tile URL, one for one: a
    param that starts with [access_token=tk.] becomes [access_token=]
    followed by the configured token (nothing if there is none), and every
    other param stays as it is, each at its own index. *)
Theorem C6_temp_token cfg env tileURL sourceURL tileSize u :
  isMapboxURL sourceURL = true →
  parseUrl tileURL = Return u →
  ∃ pth ps,
    normalizeTileURL cfg env tileURL (Some sourceURL) tileSize
    = Return (formatUrl {| protocol := protocol u; authority := authority u;
                           path := pth; params := ps |})
    ∧ length ps = length (params u)
    ∧ ∀ i p, params u !! i = Some p →
        (starts_with "access_token=tk." p = true →
         ps !! i = Some ("access_token=" +:+ or_empty (ACCESS_TOKEN cfg)))
        ∧ (starts_with "access_token=tk." p = false → ps !! i = Some p).
Proof.
  intros Hs Hu.
  destruct (normalizeTileURL_mapbox cfg env tileURL sourceURL tileSize u Hs Hu)
    as [template ->].
  eexists _, _. split; [reflexivity|]. split; [by rewrite length_fmap|].
  intros i p Hp. rewrite list_lookup_fmap, Hp. cbn [fmap option_fmap option_map].
  unfold substituteTempAccessToken. split; by intros ->.
Qed.

Lemma C6_temp_token_witness :
  isMapboxURL "mapbox://mapbox.streets" = true
  ∧ parseUrl "https://a.tiles.mapbox.com/v4/s/1/2/3.png?a=b&access_token=tk.session123&c"
    = Return (mkUrlObject "https" "a.tiles.mapbox.com" "/v4/s/1/2/3.png"
                ["a=b"; "access_token=tk.session123"; "c"])
  ∧ ∃ pth ps,
      normalizeTileURL sample_config sample_browser
        "https://a.tiles.mapbox.com/v4/s/1/2/3.png?a=b&access_token=tk.session123&c"
        (Some "mapbox://mapbox.streets") None
      = Return (formatUrl {| protocol := "https";
                             authority := "a.tiles.mapbox.com";
                             path := pth; params := ps |})
      ∧ ps !! 1 = Some "access_token=pk.KEY".
Proof.
  split; [reflexivity|]. split; [vm_compute; reflexivity|].
  destruct (C6_temp_token sample_config sample_browser
              "https://a.tiles.mapbox.com/v4/s/1/2/3.png?a=b&access_token=tk.session123&c"
              "mapbox://mapbox.streets" None
              (mkUrlObject "https" "a.tiles.mapbox.com" "/v4/s/1/2/3.png"
                 ["a=b"; "access_token=tk.session123"; "c"]))
    as (pth & ps & E & _ & H); [reflexivity | vm_compute; reflexivity |].
  exists pth, ps. split; [exact E|].
  apply (H 1 "access_token=tk.session123"); reflexivity.
Defined.

(** C6 as stated fails on a call whose source URL is absent or not
    custom-scheme: the tile URL comes back with its temporary token. *)
Lemma C6_temp_token_stated_fails :
  normalizeTileURL sample_config sample_browser
    "https://tiles.example.com/1/2/3.png?access_token=tk.session123"
    (Some "https://tiles.example.com/tiles.json") None
  = Return "https://tiles.example.com/1/2/3.png?access_token=tk.session123"
  ∧ normalizeTileURL sample_config sample_browser
      "https://tiles.example.com/1/2/3.png?access_token=tk.session123"
      None None
    = Return "https://tiles.example.com/1/2/3.png?access_token=tk.session123".
Proof. split; vm_compute; reflexivity. Qed.

(** C7. Without WebP support and whatever the device pixel ratio,
    [normalizeTileURL("mapbox://tiles/1/2/3.png", "mapbox://tileset", 512)]
    returns [mapbox://tiles/1/2/3@2x.png], a URL whose path is
    [/1/2/3@2x.png]: the marker [@2x] is there and the extension [.png] is
    kept. *)
Theorem C7_tile_512 cfg env :
  supportsWebp env = false →
  normalizeTileURL cfg env "mapbox://tiles/1/2/3.png" (Some "mapbox://tileset")
    (Some 512%Z)
  = Return "mapbox://tiles/1/2/3@2x.png"
  ∧ parseUrl "mapbox://tiles/1/2/3@2x.png"
    = Return (mkUrlObject "mapbox" "tiles" "/1/2/3@2x.png" []).
Proof.
  intros Hw. split; [|vm_compute; reflexivity].
  unfold normalizeTileURL. rewrite Hw.
  change (parseUrl "mapbox://tiles/1/2/3.png")
    with (Return (mkUrlObject "mapbox" "tiles" "/1/2/3.png" [])).
  cbn [truthy or_empty negb orb mbind completion_bind Z.eqb Pos.eqb].
  change (isMapboxURL "mapbox://tileset") with true.
  cbn [negb mbind completion_bind]. rewrite orb_true_r.
  vm_compute. reflexivity.
Qed.

Lemma C7_tile_512_witness :
  supportsWebp sample_browser = false
  ∧ normalizeTileURL sample_config sample_browser "mapbox://tiles/1/2/3.png"
      (Some "mapbox://tileset") (Some 512%Z)
    = Return "mapbox://tiles/1/2/3@2x.png".
Proof.
  split; [reflexivity|].
  apply (C7_tile_512 sample_config sample_browser). reflexivity.
Defined.

(** C8. When the source URL is absent or does not begin with [mapbox:],
    [normalizeTileURL] returns the tile URL itself, whatever the tile URL,
    the tile size and the configuration. *)
Theorem C8_tile_identity cfg env url sourceURL tileSize :
  sourceURL = None ∨ (∃ s, sourceURL = Some s ∧ isMapboxURL s = false) →
  normalizeTileURL cfg env url sourceURL tileSize = Return url.
Proof.
  unfold normalizeTileURL. intros [-> | (s & -> & Hs)]; [done|].
  cbn [or_empty]. rewrite Hs. by rewrite orb_true_r.
Qed.

Lemma C8_tile_identity_witness :
  isMapboxURL "https://tiles.example.com/tiles.json" = false
  ∧ normalizeTileURL sample_config sample_browser
      "https://tiles.example.com/1/2/3.png?access_token=tk.session123"
      (Some "https://tiles.example.com/tiles.json") (Some 512%Z)
    = Return "https://tiles.example.com/1/2/3.png?access_token=tk.session123".
Proof.
  split; [reflexivity|].
  apply C8_tile_identity. right.
  exists "https://tiles.example.com/tiles.json". split; reflexivity.
Defined.

(** C9. For a locator that does not begin with [mapbox:] and does not
    match the URL grammar, the style, glyphs and source operations return
    the locator unchanged, and the sprite operation throws the parse
    error. *)
Theorem C9_malformed_asymmetry cfg url format extension accessToken :
  isMapboxURL url = false →
  matches_url_grammar url = false →
  normalizeStyleURL cfg url accessToken = Return url
  ∧ normalizeGlyphsURL cfg url accessToken = Return url
  ∧ normalizeSourceURL cfg url accessToken = Return url
  ∧ normalizeSpriteURL cfg url format extension accessToken
    = Throw MalformedURLError.
Proof.
  intros Hm Hg%parseUrl_malformed.
  unfold normalizeStyleURL, normalizeGlyphsURL, normalizeSourceURL,
    normalizeSpriteURL.
  by rewrite Hm, Hg.
Qed.

Lemma C9_malformed_asymmetry_witness :
  isMapboxURL "styles/basic.json" = false
  ∧ matches_url_grammar "styles/basic.json" = false
  ∧ normalizeStyleURL sample_config "styles/basic.json" None
    = Return "styles/basic.json"
  ∧ normalizeGlyphsURL sample_config "styles/basic.json" None
    = Return "styles/basic.json"
  ∧ normalizeSourceURL sample_config "styles/basic.json" None
    = Return "styles/basic.json"
  ∧ normalizeSpriteURL sample_config "styles/basic.json" "@2x" ".png" None
    = Throw MalformedURLError.
Proof.
  split; [reflexivity|]. split; [reflexivity|].
  apply C9_malformed_asymmetry; reflexivity.
Defined.

(** C10. On a [normalizeTileURL] call whose source URL is custom-scheme
    and whose tile URL parses to a path that does not end in [.png] or
    [.jpg] followed by digits or nothing, the result is the parsed URL
    formatted with its path as it is and with the temporary tokens of its
    params substituted; parsing the result gives that same path. *)
Theorem C10_no_image_extension cfg env tileURL sourceURL tileSize u :
  isMapboxURL sourceURL = true →
  parseUrl tileURL = Return u →
  ends_with_image_extension (path u) = false →
  normalizeTileURL cfg env tileURL (Some sourceURL) tileSize
  = Return (formatUrl
              {| protocol := protocol u; authority := authority u;
                 path := path u;
                 params := substituteTempAccessToken cfg <$> params u |})
  ∧ ∃ r, parseUrl (formatUrl
                     {| protocol := protocol u; authority := authority u;
                        path := path u;
                        params := substituteTempAccessToken cfg <$> params u |})
         = Return r
         ∧ path r = path u.
Proof.
  intros Hs Hu Hext.
  destruct (normalizeTileURL_mapbox cfg env tileURL sourceURL tileSize u Hs Hu)
    as [template ->].
  rewrite replace_without_image_extension by done. split; [done|].
  destruct (parseUrl_parsed _ _ Hu) as [[Hp Hne] Ha Hpath _].
  destruct (scanUrl_format
              {| protocol := protocol u; authority := authority u;
                 path := path u;
                 params := substituteTempAccessToken cfg <$> params u |})
    as (ps & E & _); auto.
  eexists. rewrite parseUrl_scan. split; [exact E | done].
Qed.

Lemma C10_no_image_extension_witness :
  isMapboxURL "mapbox://mapbox.streets" = true
  ∧ parseUrl "https://a.tiles.mapbox.com/v4/s/1/2/3.vector.pbf?access_token=tk.session123"
    = Return (mkUrlObject "https" "a.tiles.mapbox.com" "/v4/s/1/2/3.vector.pbf"
                ["access_token=tk.session123"])
  ∧ ends_with_image_extension "/v4/s/1/2/3.vector.pbf" = false
  ∧ normalizeTileURL sample_config
      {| devicePixelRatio := 2; supportsWebp := true |}
      "https://a.tiles.mapbox.com/v4/s/1/2/3.vector.pbf?access_token=tk.session123"
      (Some "mapbox://mapbox.streets") (Some 512%Z)
    = Return "https://a.tiles.mapbox.com/v4/s/1/2/3.vector.pbf?access_token=pk.KEY".
Proof.
  split; [reflexivity|]. split; [vm_compute; reflexivity|].
  split; [vm_compute; reflexivity|].
  apply (C10_no_image_extension sample_config
           {| devicePixelRatio := 2; supportsWebp := true |}
           "https://a.tiles.mapbox.com/v4/s/1/2/3.vector.pbf?access_token=tk.session123"
           "mapbox://mapbox.streets" (Some 512%Z)
           (mkUrlObject "https" "a.tiles.mapbox.com" "/v4/s/1/2/3.vector.pbf"
              ["access_token=tk.session123"]));
    [reflexivity | vm_compute; reflexivity | vm_compute; reflexivity].
Defined.

(** * Further properties *)

(** ** More on strings *)

Lemma all_chars_append p a b :
  all_chars p (a +:+ b) = all_chars p a && all_chars p b.
Proof.
  induction a as [|c a IH]; simpl; [done|]. by rewrite IH, andb_assoc.
Qed.

Lemma stops_all_empty p s :
  stops p s = true → all_chars p s = true → s = "".
Proof. destruct s as [|c s]; [done|]. simpl. by destruct (p c). Qed.

Lemma starts_with_append p s :
  starts_with p s = true → ∃ r, s = p +:+ r.
Proof.
  intros [r Hr]%starts_with_strip. exists r. by apply strip_prefix_Some.
Qed.

Lemma split_all_chars p sep s :
  all_chars p s = true → Forall (λ x, all_chars p x = true) (split sep s).
Proof.
  induction s as [|c s IH]; cbn [split all_chars]; [by repeat constructor|].
  intros [Hc Hs]%andb_true_iff. specialize (IH Hs).
  destruct (Ascii.eqb c sep); [by constructor|].
  destruct (split sep s) as [|h t]; [by repeat constructor; simpl; rewrite Hc|].
  inversion_clear IH. constructor; [|done]. simpl. by rewrite Hc.
Qed.

Lemma split_no_separator sep s :
  Forall (λ x, all_chars (λ c, negb (Ascii.eqb c sep)) x = true) (split sep s).
Proof.
  induction s as [|c s IH]; cbn [split]; [by repeat constructor|].
  destruct (Ascii.eqb c sep) eqn:E; [by constructor|].
  destruct (split sep s) as [|h t]; [by repeat constructor; simpl; rewrite E|].
  inversion_clear IH. constructor; [|done]. simpl. by rewrite E.
Qed.

Lemma explicit_path_shape p :
  explicit_path p = true →
  first_is "/" p = true ∧ all_chars not_question p = true ∧ p ≠ "/".
Proof.
  destruct p as [|c [|c' t]]; try done. cbn [explicit_path first_is].
  intros [Hc Ht]%andb_true_iff. apply Ascii.eqb_eq in Hc. subst c.
  split; [done|]. split; [|done].
  change (all_chars not_question (String "/" (String c' t)))
    with (all_chars not_question (String c' t)). exact Ht.
Qed.

Lemma scan_path_Some r p r4 :
  scan_path r = (Some p, r4) → r = p +:+ r4 ∧ stops not_question r4 = true.
Proof.
  unfold scan_path. destruct r as [|c [|c' t]]; try done.
  - by destruct (Ascii.eqb "/" c).
  - destruct (Ascii.eqb "/" c); [|done].
    destruct (not_question c'); [|done]. intros [= <- <-].
    split; [|apply stops_drop]. simpl. by rewrite take_drop.
Qed.

(** The pieces of a URL that [parseUrl] accepts. *)
Lemma parseUrl_pieces url u :
  parseUrl url = Return u →
  ∃ r3, url = protocol u +:+ "://" +:+ authority u +:+ r3
        ∧ stops not_slash_question r3 = true
        ∧ path u = match (scan_path r3).1 with Some p => p | None => "/" end
        ∧ params u = let q := take_while dot (skip_question (scan_path r3).2) in
                     match q with
                     | String _ _ => split "&" q
                     | EmptyString => []
                     end.
Proof.
  rewrite parseUrl_scan. unfold scanUrl.
  destruct (take_while word url) as [|c scheme] eqn:Es; [done|].
  destruct (strip_prefix "://" (drop_while word url)) as [r2|] eqn:Er; [|done].
  intros [= <-]. cbn [protocol authority path params].
  exists (drop_while not_slash_question r2). split; [|split; [apply stops_drop|split; reflexivity]].
  rewrite <- (take_drop word url) at 1. rewrite Es.
  rewrite (strip_prefix_Some _ _ _ Er).
  by rewrite (take_drop not_slash_question r2).
Qed.

(** ** The parser *)

(** [parseUrl] accepts exactly the strings made of a non-empty word of
    [\w] characters, then ["://"], then anything; on every other string it
    throws, and the parse error is the only error it throws. *)
Theorem parseUrl_accepts_grammar url :
  ((∃ u, parseUrl url = Return u) ↔ url_grammar url)
  ∧ (∀ msg, parseUrl url = Throw msg → msg = MalformedURLError ∧ ¬ url_grammar url).
Proof.
  split; [apply parseUrl_grammar|].
  intros msg H. destruct (parseUrl_result url) as [E|[u E]]; [|congruence].
  split; [congruence|]. by apply parseUrl_throws.
Qed.

(** What [parseUrl] returns is well formed: the protocol is a non-empty
    word, the authority has no slash and no question mark, the path starts
    with a slash and has no question mark, and no param holds an
    ampersand or a line terminator. *)
Theorem parseUrl_well_formed url u :
  parseUrl url = Return u →
  protocol u ≠ "" ∧ all_chars word (protocol u) = true
  ∧ all_chars (none_of ["/"; "?"]%char) (authority u) = true
  ∧ first_is "/" (path u) = true
  ∧ all_chars (none_of ["?"]%char) (path u) = true
  ∧ Forall (λ p, all_chars (λ c, negb (Ascii.eqb c "&")) p = true
                 ∧ all_chars dot p = true) (params u).
Proof.
  intros [[Hp Hne] Ha Hpath Hq]%parseUrl_parsed.
  split; [done|]. split; [done|]. split; [done|].
  split; [|split].
  - destruct Hpath as [->|H%explicit_path_shape]; [done | tauto].
  - destruct Hpath as [->|H%explicit_path_shape]; [done | tauto].
  - destruct Hq as [->|(q & _ & Hdot & ->)]; [constructor|].
    apply Forall_and. split; [apply split_no_separator|].
    by apply split_all_chars.
Qed.

Lemma parseUrl_well_formed_witness :
  parseUrl "https://a.tiles.mapbox.com/v4/s.json?secure&x=1"
  = Return (mkUrlObject "https" "a.tiles.mapbox.com" "/v4/s.json"
              ["secure"; "x=1"])
  ∧ first_is "/" "/v4/s.json" = true.
Proof.
  split; [vm_compute; reflexivity|].
  apply (parseUrl_well_formed "https://a.tiles.mapbox.com/v4/s.json?secure&x=1"
           (mkUrlObject "https" "a.tiles.mapbox.com" "/v4/s.json"
              ["secure"; "x=1"])).
  vm_compute. reflexivity.
Defined.

(** Formatting what was parsed: for a URL without line terminators whose
    parsed path is not the default ["/"], [formatUrl] gives the URL back,
    but for a lone question mark at its end, which is dropped. *)
Theorem formatUrl_parseUrl url u :
  parseUrl url = Return u →
  path u ≠ "/" →
  all_chars dot url = true →
  formatUrl u = url ∨ formatUrl u +:+ "?" = url.
Proof.
  intros (r3 & Hurl & _ & Hpath & Hparams)%parseUrl_pieces Hroot Hdot.
  rewrite formatUrl_eq, Hparams. clear Hparams.
  destruct (scan_path r3) as [[p|] r4] eqn:Es; cbn [fst snd] in *; [|done].
  apply scan_path_Some in Es as [-> Hstop]. rewrite Hpath.
  subst url. rewrite !all_chars_append in Hdot.
  repeat (apply andb_true_iff in Hdot as [? Hdot]).
  destruct r4 as [|c r5]; cbn [skip_question take_while].
  - left. done.
  - cbn [stops] in Hstop. apply negb_true_iff in Hstop.
    destruct (Ascii.eqb_spec "?" c) as [<-|Hc].
    2:{ exfalso. unfold not_question, none_of in Hstop. cbn in Hstop.
        rewrite orb_false_r in Hstop. apply negb_false_iff in Hstop.
        apply Ascii.eqb_eq in Hstop. congruence. }
    cbn [all_chars] in Hdot. apply andb_true_iff in Hdot as [_ Hdot].
    rewrite (take_while_all _ _ Hdot).
    destruct r5 as [|c' r5'].
    + right. cbn [query_suffix]. by rewrite append_empty_r, !append_assoc.
    + left. by rewrite query_suffix_split.
Qed.

Lemma formatUrl_parseUrl_witness :
  parseUrl "https://a.tiles.mapbox.com/v4/s.json?secure&x=1"
  = Return (mkUrlObject "https" "a.tiles.mapbox.com" "/v4/s.json"
              ["secure"; "x=1"])
  ∧ "/v4/s.json" ≠ "/"
  ∧ all_chars dot "https://a.tiles.mapbox.com/v4/s.json?secure&x=1" = true
  ∧ formatUrl (mkUrlObject "https" "a.tiles.mapbox.com" "/v4/s.json"
                 ["secure"; "x=1"])
    = "https://a.tiles.mapbox.com/v4/s.json?secure&x=1".
Proof.
  split; [vm_compute; reflexivity|]. split; [discriminate|].
  split; [vm_compute; reflexivity|].
  destruct (formatUrl_parseUrl
              "https://a.tiles.mapbox.com/v4/s.json?secure&x=1"
              (mkUrlObject "https" "a.tiles.mapbox.com" "/v4/s.json"
                 ["secure"; "x=1"])) as [H|H];
    [vm_compute; reflexivity | discriminate | vm_compute; reflexivity
    | exact H | vm_compute in H; discriminate H].
Defined.

(** A locator that parses is custom-scheme exactly when its protocol is
    [mapbox]. *)
Theorem isMapboxURL_protocol url u :
  parseUrl url = Return u →
  (isMapboxURL url = true ↔ protocol u = "mapbox").
Proof.
  intros Hu. pose proof Hu as (r3 & Hurl & _)%parseUrl_pieces.
  split.
  - intros [rest ->]%starts_with_append.
    rewrite parseUrl_scan in Hu. unfold scanUrl in Hu.
    change (take_while word ("mapbox:" +:+ rest)) with "mapbox" in Hu.
    destruct (strip_prefix _ _); [|done]. by injection Hu as <-.
  - intros Hp. rewrite Hurl, Hp. reflexivity.
Qed.

Lemma isMapboxURL_protocol_witness :
  parseUrl "mapbox://mapbox.streets"
  = Return (mkUrlObject "mapbox" "mapbox.streets" "/" [])
  ∧ isMapboxURL "mapbox://mapbox.streets" = true.
Proof.
  split; [vm_compute; reflexivity|].
  apply (isMapboxURL_protocol "mapbox://mapbox.streets"
           (mkUrlObject "mapbox" "mapbox.streets" "/" []));
    [vm_compute; reflexivity | reflexivity].
Defined.

(** ** URLs against the API *)

(** A formatted value with a word for protocol, an authority without
    slash or question mark and a path that starts with a slash parses, and
    keeps its protocol and authority. *)
Lemma parseUrl_formatUrl_origin o :
  all_chars word (protocol o) = true → protocol o ≠ "" →
  all_chars not_slash_question (authority o) = true →
  first_is "/" (path o) = true →
  ∃ v, parseUrl (formatUrl o) = Return v
       ∧ protocol v = protocol o ∧ authority v = authority o.
Proof.
  intros Hp Hne Ha Hpath. rewrite parseUrl_scan, formatUrl_eq. unfold scanUrl.
  rewrite take_while_append, drop_while_append by done.
  rewrite (strip_prefix_append "://").
  assert (stops not_slash_question (path o +:+ query_suffix (params o)) = true).
  { destruct (path o) as [|c t]; [done|]. cbn [first_is] in Hpath.
    apply Ascii.eqb_eq in Hpath. by subst c. }
  rewrite take_while_append by done.
  destruct (protocol o); [done|]. eauto.
Qed.

Lemma parsed_path_slash a : parsed a → first_is "/" (path a) = true.
Proof.
  intros [_ _ [->|H%explicit_path_shape] _]; [done | tauto].
Qed.

(** What [makeAPIURL] returns parses, with the protocol and the authority
    of the API base URL. *)
Lemma makeAPIURL_origin cfg o accessToken r :
  first_is "/" (path o) = true →
  makeAPIURL cfg o accessToken = Return r →
  ∃ a v, parseUrl (API_URL cfg) = Return a ∧ parseUrl r = Return v
         ∧ protocol v = protocol a ∧ authority v = authority a.
Proof.
  intros Hpath. unfold makeAPIURL.
  destruct (parseUrl (API_URL cfg)) as [a|] eqn:Ea; [|done].
  cbn [mbind completion_bind].
  pose proof (parseUrl_parsed _ _ Ea) as Hparsed.
  pose proof (parsed_path_slash _ Hparsed) as Hslash.
  destruct Hparsed as [[Hp Hne] Ha _ _].
  set (o' := if negb (String.eqb (path a) "/")
             then set_path (set_origin o (protocol a) (authority a))
                    (path a +:+ path (set_origin o (protocol a) (authority a)))
             else set_origin o (protocol a) (authority a)).
  assert (protocol o' = protocol a ∧ authority o' = authority a
          ∧ first_is "/" (path o') = true) as (Hpo & Hao & Hso).
  { unfold o'. destruct (negb (String.eqb (path a) "/")); cbn; [|done].
    destruct (path a); [done|]. done. }
  assert (∀ ps, ∃ v, parseUrl (formatUrl (set_params o' ps)) = Return v
                     ∧ protocol v = protocol a ∧ authority v = authority a)
    as Hfmt.
  { intros ps.
    destruct (parseUrl_formatUrl_origin (set_params o' ps))
      as (v & Hv & Hpv & Hav); cbn [protocol authority path set_params];
      rewrite ?Hpo, ?Hao; try done.
    exists v. cbn [protocol authority set_params] in Hpv, Hav.
    by rewrite Hpv, Hav, Hpo, Hao. }
  assert (set_params o' (params o') = o') as Hid by by destruct o'.
  destruct (negb (REQUIRE_ACCESS_TOKEN cfg)).
  - intros [= <-]. exists a.
    destruct (Hfmt (params o')) as (v & Hv & ?). rewrite Hid in Hv.
    by exists v.
  - destruct (negb (truthy _)); [done|]. destruct (first_is "s" _); [done|].
    intros [= <-]. exists a. unfold push_param.
    match goal with |- context [set_params o' ?ps] =>
      destruct (Hfmt ps) as (v & ?) end.
    by exists v.
Qed.

(** Every URL that the style, glyphs, source and sprite operations build
    from a custom-scheme locator points at the configured API: it parses,
    with the protocol and the authority of the API base URL. *)
Theorem normalized_urls_point_at_api cfg url format extension accessToken r :
  isMapboxURL url = true →
  normalizeStyleURL cfg url accessToken = Return r
  ∨ normalizeGlyphsURL cfg url accessToken = Return r
  ∨ normalizeSourceURL cfg url accessToken = Return r
  ∨ normalizeSpriteURL cfg url format extension accessToken = Return r →
  ∃ a v, parseUrl (API_URL cfg) = Return a ∧ parseUrl r = Return v
         ∧ protocol v = protocol a ∧ authority v = authority a.
Proof.
  intros Hm.
  unfold normalizeStyleURL, normalizeGlyphsURL, normalizeSourceURL,
    normalizeSpriteURL.
  rewrite Hm. cbn [negb]. destruct (parseUrl url) as [u|]; cbn [mbind completion_bind];
    [|by intros [|[|[|]]]].
  intros [H|[H|[H|H]]]; eapply makeAPIURL_origin in H; done.
Qed.

Lemma normalized_urls_point_at_api_witness :
  isMapboxURL "mapbox://mapbox.streets" = true
  ∧ normalizeSourceURL sample_config "mapbox://mapbox.streets" None
    = Return "https://api.mapbox.com/v4/mapbox.streets.json?secure&access_token=pk.KEY"
  ∧ ∃ a v, parseUrl (API_URL sample_config) = Return a
           ∧ parseUrl "https://api.mapbox.com/v4/mapbox.streets.json?secure&access_token=pk.KEY"
             = Return v
           ∧ protocol v = protocol a ∧ authority v = authority a.
Proof.
  split; [reflexivity|]. split; [vm_compute; reflexivity|].
  apply (normalized_urls_point_at_api sample_config "mapbox://mapbox.streets"
           "" "" None); [reflexivity|].
  right. right. left. vm_compute. reflexivity.
Defined.

(** When a token is required and neither the override nor the configured
    token is a non-empty string, the four operations throw the
    missing-token error on every custom-scheme locator that parses, if
    the API base URL parses. An empty override counts as none. *)
Theorem missing_token cfg url format extension accessToken u api :
  isMapboxURL url = true →
  parseUrl url = Return u →
  parseUrl (API_URL cfg) = Return api →
  REQUIRE_ACCESS_TOKEN cfg = true →
  truthy accessToken = false →
  truthy (ACCESS_TOKEN cfg) = false →
  normalizeStyleURL cfg url accessToken = Throw MissingTokenError
  ∧ normalizeGlyphsURL cfg url accessToken = Throw MissingTokenError
  ∧ normalizeSourceURL cfg url accessToken = Throw MissingTokenError
  ∧ normalizeSpriteURL cfg url format extension accessToken
    = Throw MissingTokenError.
Proof.
  intros Hm Hu Hapi Hreq Ht Hc.
  assert (∀ o, makeAPIURL cfg o accessToken = Throw MissingTokenError) as Hmake.
  { intros o. unfold makeAPIURL, or_else. rewrite Hapi, Hreq, Ht, Hc. done. }
  unfold normalizeStyleURL, normalizeGlyphsURL, normalizeSourceURL,
    normalizeSpriteURL.
  rewrite Hm, Hu. cbn. by rewrite !Hmake.
Qed.

Lemma missing_token_witness :
  isMapboxURL "mapbox://styles/u/s" = true
  ∧ parseUrl "mapbox://styles/u/s"
    = Return (mkUrlObject "mapbox" "styles" "/u/s" [])
  ∧ normalizeStyleURL
      {| API_URL := "https://api.mapbox.com"; EVENTS_URL := "";
         REQUIRE_ACCESS_TOKEN := true; ACCESS_TOKEN := None |}
      "mapbox://styles/u/s" (Some "")
    = Throw MissingTokenError.
Proof.
  split; [reflexivity|]. split; [vm_compute; reflexivity|].
  apply (missing_token
           {| API_URL := "https://api.mapbox.com"; EVENTS_URL := "";
              REQUIRE_ACCESS_TOKEN := true; ACCESS_TOKEN := None |}
           "mapbox://styles/u/s" "" "" (Some "")
           (mkUrlObject "mapbox" "styles" "/u/s" [])
           (mkUrlObject "https" "api.mapbox.com" "/" []));
    vm_compute; reflexivity.
Defined.

(** The errors of the module: the style, glyphs, source and sprite
    operations throw nothing but the parse error, the missing-token error
    and the secret-token error, and [normalizeTileURL] throws nothing but
    the parse error. *)
Theorem errors_thrown cfg env url format extension accessToken sourceURL
    tileSize msg :
  (normalizeStyleURL cfg url accessToken = Throw msg
   ∨ normalizeGlyphsURL cfg url accessToken = Throw msg
   ∨ normalizeSourceURL cfg url accessToken = Throw msg
   ∨ normalizeSpriteURL cfg url format extension accessToken = Throw msg →
   msg = MalformedURLError ∨ msg = MissingTokenError ∨ msg = SecretTokenError)
  ∧ (normalizeTileURL cfg env url sourceURL tileSize = Throw msg →
     msg = MalformedURLError).
Proof.
  assert (∀ s m, parseUrl s = Throw m → m = MalformedURLError) as Hparse.
  { intros s m H. destruct (parseUrl_result s) as [|[? ?]]; congruence. }
  assert (∀ o, makeAPIURL cfg o accessToken = Throw msg →
               msg = MalformedURLError ∨ msg = MissingTokenError
               ∨ msg = SecretTokenError) as Hmake.
  { intros o. unfold makeAPIURL.
    destruct (parseUrl (API_URL cfg)) eqn:E; cbn [mbind completion_bind].
    - destruct (negb (REQUIRE_ACCESS_TOKEN cfg)); [done|].
      destruct (negb (truthy _)); [intros [= <-]; auto|].
      destruct (first_is "s" _); [intros [= <-]; auto | done].
    - intros [= <-]. left. eauto. }
  split.
  - unfold normalizeStyleURL, normalizeGlyphsURL, normalizeSourceURL,
      normalizeSpriteURL.
    destruct (parseUrl url) eqn:E; cbn [mbind completion_bind];
      destruct (negb (isMapboxURL url));
      intros [H|[H|[H|H]]]; try done; eauto;
      injection H as <-; left; eauto.
  - unfold normalizeTileURL. destruct (_ || _); [done|].
    destruct (parseUrl url) eqn:E; [done|]. intros [= <-]. eauto.
Qed.

Lemma errors_thrown_witness :
  normalizeStyleURL sample_config "mapbox://styles/u/s" (Some "sk.SECRET")
  = Throw SecretTokenError
  ∧ (SecretTokenError = MalformedURLError ∨ SecretTokenError = MissingTokenError
     ∨ SecretTokenError = SecretTokenError).
Proof.
  split; [vm_compute; reflexivity|].
  apply (errors_thrown sample_config sample_browser "mapbox://styles/u/s" "" ""
           (Some "sk.SECRET") None None SecretTokenError).
  left. vm_compute. reflexivity.
Defined.

(** The source operation: for a custom-scheme locator that parses, an API
    base URL that parses and a public token, the result has the path
    [/v4/<authority>.json] after the path of the API base URL, if that is
    not ["/"]; the path of the locator is dropped; and the params are
    those of the locator, then [secure], then the access token. *)
Theorem source_url cfg url accessToken u api :
  isMapboxURL url = true →
  parseUrl url = Return u →
  parseUrl (API_URL cfg) = Return api →
  REQUIRE_ACCESS_TOKEN cfg = true →
  truthy (or_else accessToken (ACCESS_TOKEN cfg)) = true →
  first_is "s" (or_empty (or_else accessToken (ACCESS_TOKEN cfg))) = false →
  normalizeSourceURL cfg url accessToken
  = Return (protocol api +:+ "://" +:+ authority api
            +:+ (if String.eqb (path api) "/" then "" else path api)
            +:+ "/v4/" +:+ authority u +:+ ".json"
            +:+ "?" +:+ join "&"
                  (params u
                   ++ ["secure";
                       "access_token="
                       +:+ or_empty (or_else accessToken (ACCESS_TOKEN cfg))])).
Proof.
  intros Hm Hu Hapi Hreq Ht Hs. unfold normalizeSourceURL, makeAPIURL.
  rewrite Hm, Hu. cbn [negb mbind completion_bind]. rewrite Hapi, Hreq, Ht, Hs.
  cbn [negb mbind completion_bind]. f_equal. rewrite formatUrl_eq.
  destruct (String.eqb (path api) "/"); cbn [negb];
    cbn [push_param set_params set_path set_origin protocol authority path
           params];
    rewrite <- !app_assoc; cbn [app];
    (destruct (params u ++ _) eqn:E; [by destruct (params u)|]);
    cbn [query_suffix]; by rewrite ?append_assoc.
Qed.

Lemma source_url_witness :
  isMapboxURL "mapbox://mapbox.streets?fresh=1" = true
  ∧ normalizeSourceURL
      {| API_URL := "https://test.example.com/api.mapbox.com"; EVENTS_URL := "";
         REQUIRE_ACCESS_TOKEN := true; ACCESS_TOKEN := Some "pk.KEY" |}
      "mapbox://mapbox.streets?fresh=1" None
    = Return "https://test.example.com/api.mapbox.com/v4/mapbox.streets.json?fresh=1&secure&access_token=pk.KEY".
Proof.
  split; [reflexivity|].
  apply (source_url
           {| API_URL := "https://test.example.com/api.mapbox.com";
              EVENTS_URL := ""; REQUIRE_ACCESS_TOKEN := true;
              ACCESS_TOKEN := Some "pk.KEY" |}
           "mapbox://mapbox.streets?fresh=1" None
           (mkUrlObject "mapbox" "mapbox.streets" "/" ["fresh=1"])
           (mkUrlObject "https" "test.example.com" "/api.mapbox.com" []));
    vm_compute; reflexivity.
Defined.

(** ** Sprites of other hosts *)

(** For a locator that is not custom-scheme, has a path after its
    authority and has no question mark, the sprite operation returns the
    locator followed by the format and the extension; it reads no
    configuration and checks no token. *)
Theorem sprite_url_appended cfg url format extension accessToken u :
  isMapboxURL url = false →
  parseUrl url = Return u →
  path u ≠ "/" →
  all_chars (none_of ["?"]%char) url = true →
  normalizeSpriteURL cfg url format extension accessToken
  = Return (url +:+ format +:+ extension).
Proof.
  intros Hm Hu Hroot Hq. unfold normalizeSpriteURL. rewrite Hu, Hm.
  cbn [negb mbind completion_bind]. f_equal.
  apply parseUrl_pieces in Hu as (r3 & Hurl & _ & Hpath & Hparams).
  destruct (scan_path r3) as [[p|] r4] eqn:Es; cbn [fst snd] in *; [|done].
  apply scan_path_Some in Es as [-> Hstop].
  rewrite Hurl in Hq. rewrite !all_chars_append in Hq.
  repeat (apply andb_true_iff in Hq as [? Hq]).
  apply (stops_all_empty _ _ Hstop) in Hq. subst r4.
  cbn [skip_question take_while] in Hparams.
  rewrite formatUrl_eq. cbn [set_path protocol authority path params].
  rewrite Hparams, Hurl, Hpath. cbn [query_suffix].
  by rewrite !append_empty_r, !append_assoc.
Qed.

Lemma sprite_url_appended_witness :
  isMapboxURL "https://www.example.com/sprites/bright" = false
  ∧ parseUrl "https://www.example.com/sprites/bright"
    = Return (mkUrlObject "https" "www.example.com" "/sprites/bright" [])
  ∧ all_chars (none_of ["?"]%char) "https://www.example.com/sprites/bright" = true
  ∧ normalizeSpriteURL bad_api_config "https://www.example.com/sprites/bright"
      "@2x" ".json" None
    = Return "https://www.example.com/sprites/bright@2x.json".
Proof.
  split; [reflexivity|]. split; [vm_compute; reflexivity|].
  split; [vm_compute; reflexivity|].
  apply (sprite_url_appended bad_api_config
           "https://www.example.com/sprites/bright" "@2x" ".json" None
           (mkUrlObject "https" "www.example.com" "/sprites/bright" []));
    [reflexivity | vm_compute; reflexivity | discriminate
    | vm_compute; reflexivity].
Defined.

(** ** Temporary tokens *)



(** ** Image tiles *)

Lemma consumed_all s : consumed s "" = s.
Proof. rewrite <- (append_empty_r s) at 1. apply consumed_append. Qed.

Lemma drop_while_all p s : all_chars p s = true → drop_while p s = "".
Proof.
  intros H. rewrite <- (append_empty_r s). by apply drop_while_append.
Qed.

(** An extension and digits do not start one character before another
    extension and digits. *)
Lemma image_extension_not_earlier c pre ext digits ext' digits' :
  (ext = ".png" ∨ ext = ".jpg") → (ext' = ".png" ∨ ext' = ".jpg") →
  all_chars digit digits' = true →
  String c (pre +:+ ext +:+ digits) ≠ ext' +:+ digits'.
Proof.
  intros Hext Hext' Hd E.
  destruct pre as [|a [|b [|d pre]]];
    destruct Hext as [-> | ->], Hext' as [-> | ->];
    cbn [String.append] in E; try discriminate E.
  all: injection E as _ _ _ _ E; subst digits'.
  all: rewrite all_chars_append in Hd.
  all: cbn [all_chars] in Hd; change (digit ".") with false in Hd.
  all: cbn [andb] in Hd; by rewrite andb_false_r in Hd.
Qed.

(** [exec] of [imageExtensionRe] on a string that ends with an extension
    and digits: the match starts at the extension and goes to the end. *)
Lemma exec_from_imageExtensionRe input i pre ext digits :
  (ext = ".png" ∨ ext = ".jpg") → all_chars digit digits = true →
  ∃ m, exec_from input imageExtensionRe i (pre +:+ ext +:+ digits) = Some m
       ∧ index m = i + String.length pre ∧ after m = ""
       ∧ parts m 0 = Some (ext +:+ digits) ∧ parts m 1 = Some (ext +:+ digits).
Proof.
  intros Hext Hd. revert i. induction pre as [|c pre IH]; intros i.
  - cbn [String.append]. rewrite Nat.add_0_r.
    destruct Hext as [-> | ->];
      cbn [exec_from matcher imageExtensionRe Cat foldr Lit String.append
             Ascii.eqb Bool.eqb];
      erewrite star_greedy by (rewrite drop_while_all by done; reflexivity);
      (eexists; split; [reflexivity|]); cbn [index after parts];
      rewrite ?consumed_all; repeat split; reflexivity.
  - cbn [String.append exec_from]. fold accept.
    destruct (matcher input imageExtensionRe (String c (pre +:+ ext +:+ digits))
                no_captures accept) as [st|] eqn:E.
    + apply matcher_imageExtensionRe in E as (ext' & digits' & E & Hext' & Hd').
      by apply image_extension_not_earlier in E.
    + destruct (IH (S i)) as (m & -> & Hi & ?). exists m.
      split; [done|]. split; [|done]. simpl. lia.
Qed.

Lemma substring_append_l a b :
  substring 0 (String.length a) (a +:+ b) = a.
Proof. apply substring_prefix. Qed.

(** [replace] of [imageExtensionRe] by the four templates that
    [normalizeTileURL] builds. *)
Lemma replace_imageExtensionRe (marker : bool) (webp : bool) pre ext digits :
  (ext = ".png" ∨ ext = ".jpg") → all_chars digit digits = true →
  replace imageExtensionRe
    ((if marker then "@2x" else "") +:+ (if webp then ".webp" else "$1"))
    (pre +:+ ext +:+ digits)
  = pre +:+ (if marker then "@2x" else "")
    +:+ (if webp then ".webp" else ext +:+ digits).
Proof.
  intros Hext Hd. unfold replace, exec.
  destruct (exec_from_imageExtensionRe (pre +:+ ext +:+ digits) 0 pre ext digits
              Hext Hd) as (m & -> & Hi & Ha & _ & H1).
  rewrite Hi, Ha. cbn [Nat.add]. rewrite substring_append_l.
  change (ngroups imageExtensionRe) with 2.
  destruct marker, webp;
    cbn [String.append substitution Ascii.eqb Bool.eqb];
    change (digit_value "1") with (Some 1);
    cbn [Nat.leb andb]; rewrite ?H1; cbn [or_empty];
    by rewrite ?append_empty_r.
Qed.

Lemma normalizeTileURL_mapbox_template cfg env tileURL sourceURL tileSize u :
  isMapboxURL sourceURL = true →
  parseUrl tileURL = Return u →
  normalizeTileURL cfg env tileURL (Some sourceURL) tileSize
  = Return (formatUrl
              {| protocol := protocol u; authority := authority u;
                 path := replace imageExtensionRe
                           ((if Qle_bool 2 (devicePixelRatio env)
                                || match tileSize with
                                   | Some n => (n =? 512)%Z
                                   | None => false
                                   end
                             then "@2x" else "")
                            +:+ (if supportsWebp env then ".webp" else "$1"))
                           (path u);
                 params := substituteTempAccessToken cfg <$> params u |}).
Proof.
  intros Hs Hu. unfold normalizeTileURL.
  rewrite (isMapboxURL_truthy _ Hs), Hu. cbn [mbind completion_bind].
  by rewrite replaceTempAccessToken_map.
Qed.

(** The tile of a Mapbox source whose path ends in [.png] or [.jpg] and
    digits: the marker [@2x] is put before the extension when the device
    pixel ratio is at least 2 or the tile size is 512, the extension and
    its digits are replaced by [.webp] when WebP is supported and kept
    otherwise, and what is before the extension stays. *)
Theorem tile_image_extension cfg env tileURL sourceURL tileSize u pre ext
    digits :
  isMapboxURL sourceURL = true →
  parseUrl tileURL = Return u →
  path u = pre +:+ ext +:+ digits →
  ext = ".png" ∨ ext = ".jpg" →
  all_chars digit digits = true →
  normalizeTileURL cfg env tileURL (Some sourceURL) tileSize
  = Return (formatUrl
              {| protocol := protocol u; authority := authority u;
                 path := pre
                         +:+ (if Qle_bool 2 (devicePixelRatio env)
                                 || match tileSize with
                                    | Some n => (n =? 512)%Z
                                    | None => false
                                    end
                              then "@2x" else "")
                         +:+ (if supportsWebp env then ".webp"
                              else ext +:+ digits);
                 params := substituteTempAccessToken cfg <$> params u |}).
Proof.
  intros Hs Hu Hpath Hext Hd.
  rewrite (normalizeTileURL_mapbox_template _ _ _ _ _ _ Hs Hu), Hpath.
  by rewrite replace_imageExtensionRe.
Qed.

Lemma tile_image_extension_witness :
  isMapboxURL "mapbox://mapbox.satellite" = true
  ∧ parseUrl "https://a.tiles.mapbox.com/v4/s/1/2/3.jpg70?access_token=tk.t"
    = Return (mkUrlObject "https" "a.tiles.mapbox.com" "/v4/s/1/2/3.jpg70"
                ["access_token=tk.t"])
  ∧ all_chars digit "70" = true
  ∧ normalizeTileURL sample_config
      {| devicePixelRatio := 3 # 2; supportsWebp := true |}
      "https://a.tiles.mapbox.com/v4/s/1/2/3.jpg70?access_token=tk.t"
      (Some "mapbox://mapbox.satellite") (Some 512%Z)
    = Return "https://a.tiles.mapbox.com/v4/s/1/2/3@2x.webp?access_token=pk.KEY".
Proof.
  split; [reflexivity|]. split; [vm_compute; reflexivity|].
  split; [reflexivity|].
  apply (tile_image_extension sample_config
           {| devicePixelRatio := 3 # 2; supportsWebp := true |}
           "https://a.tiles.mapbox.com/v4/s/1/2/3.jpg70?access_token=tk.t"
           "mapbox://mapbox.satellite" (Some 512%Z)
           (mkUrlObject "https" "a.tiles.mapbox.com" "/v4/s/1/2/3.jpg70"
              ["access_token=tk.t"]) "/v4/s/1/2/3" ".jpg" "70");
    [reflexivity | vm_compute; reflexivity | reflexivity | by right
    | reflexivity].
Defined.

Lemma replace_imageExtensionRe_slash (marker webp : bool) p :
  first_is "/" p = true →
  first_is "/"
    (replace imageExtensionRe
       ((if marker then "@2x" else "") +:+ (if webp then ".webp" else "$1")) p)
  = true.
Proof.
  intros Hp. destruct (ends_with_image_extension p) eqn:E.
  - apply ends_with_image_extension_spec in E
      as (pre & ext & digits & -> & Hext & Hd).
    rewrite replace_imageExtensionRe by done.
    destruct pre as [|c pre]; [by destruct Hext as [-> | ->]|]. exact Hp.
  - by rewrite replace_without_image_extension.
Qed.

(** A tile URL is never sent to another host: what [normalizeTileURL]
    returns for a Mapbox source parses, with the protocol and the
    authority of the tile URL, whatever the API base URL is. *)
Theorem tile_keeps_origin cfg env tileURL sourceURL tileSize r :
  isMapboxURL sourceURL = true →
  normalizeTileURL cfg env tileURL (Some sourceURL) tileSize = Return r →
  ∃ u v, parseUrl tileURL = Return u ∧ parseUrl r = Return v
         ∧ protocol v = protocol u ∧ authority v = authority u.
Proof.
  intros Hs H. destruct (parseUrl tileURL) as [u|] eqn:Hu.
  2:{ unfold normalizeTileURL in H.
      by rewrite (isMapboxURL_truthy _ Hs), Hu in H. }
  rewrite (normalizeTileURL_mapbox_template _ _ _ _ _ _ Hs Hu) in H.
  injection H as <-. exists u.
  pose proof (parseUrl_parsed _ _ Hu) as Hparsed.
  pose proof (parsed_path_slash _ Hparsed) as Hslash.
  destruct Hparsed as [[Hp Hne] Ha _ _].
  match goal with |- ∃ v, _ ∧ parseUrl (formatUrl ?o) = _ ∧ _ =>
    destruct (parseUrl_formatUrl_origin o) as (v & Hv & ? & ?) end;
    cbn [protocol authority path]; try done.
  - by apply replace_imageExtensionRe_slash.
  - by exists v.
Qed.

Lemma tile_keeps_origin_witness :
  isMapboxURL "mapbox://mapbox.satellite" = true
  ∧ normalizeTileURL bad_api_config sample_browser
      "https://a.tiles.mapbox.com/v4/s/1/2/3.png" (Some "mapbox://mapbox.satellite")
      None
    = Return "https://a.tiles.mapbox.com/v4/s/1/2/3.png"
  ∧ ∃ u v, parseUrl "https://a.tiles.mapbox.com/v4/s/1/2/3.png" = Return u
           ∧ parseUrl "https://a.tiles.mapbox.com/v4/s/1/2/3.png" = Return v
           ∧ protocol v = protocol u ∧ authority v = authority u.
Proof.
  split; [reflexivity|]. split; [vm_compute; reflexivity|].
  apply (tile_keeps_origin bad_api_config sample_browser
           "https://a.tiles.mapbox.com/v4/s/1/2/3.png"
           "mapbox://mapbox.satellite" None);
    [reflexivity | vm_compute; reflexivity].
Defined.

(** ** The turnstile event, call after call *)

Section Reporting.

Variable storageAvailable : string → bool.
Variable validateUuid : option string → bool.
Variable version : string.
Variable getDate : Z → option Z.

(** What is sent: a call that sends has a configured token; the request
    is an asynchronous POST of plain text to the events URL with the
    configured token as its last param, a URL that parses with the
    protocol and the authority of the events URL; the event is an
    [appUserTurnstile] of [mapbox-gl-js] with telemetry off, and its user
    is the identifier that the handler of the request will store. *)
Theorem turnstile_request cfg localStorage uuid now sent r :
  postTurnstileEvent storageAvailable validateUuid version getDate
    cfg localStorage uuid now sent = Return (Some r) →
  truthy (ACCESS_TOKEN cfg) = true
  ∧ method r = "POST" ∧ async r = true
  ∧ requestHeaders r = [("Content-Type", "text/plain")]
  ∧ event (body r) = "appUserTurnstile"
  ∧ sdkIdentifier (body r) = "mapbox-gl-js"
  ∧ enabled_telemetry (body r) = false
  ∧ userId (body r) = handler_anonId r
  ∧ ∃ e v, parseUrl (EVENTS_URL cfg) = Return e
           ∧ url r = formatUrl
                       (push_param e ("access_token="
                                      +:+ or_empty (ACCESS_TOKEN cfg)))
           ∧ parseUrl (url r) = Return v
           ∧ protocol v = protocol e ∧ authority v = authority e.
Proof.
  unfold postTurnstileEvent.
  destruct (truthy (ACCESS_TOKEN cfg)); [|done]. cbn [negb].
  destruct (retrieve _ _) as [a l]. destruct (_ && _); [done|].
  destruct (parseUrl (EVENTS_URL cfg)) as [e|] eqn:He; [|done].
  cbn [mbind completion_bind]. intros [= <-]. cbn.
  repeat (split; [done|]).
  pose proof (parseUrl_parsed _ _ He) as Hparsed.
  pose proof (parsed_path_slash _ Hparsed) as Hslash.
  destruct Hparsed as [[Hp Hne] Ha _ _].
  destruct (parseUrl_formatUrl_origin
              (push_param e ("access_token=" +:+ or_empty (ACCESS_TOKEN cfg))))
    as (v & Hv & ? & ?); try done.
  by exists e, v.
Qed.

(** Once per day: after a call has sent its request and the handler has
    seen it done with status 200, or seen the status 204, at a time other
    than 0, a later call on the same day of the month and less than a day
    later returns without a request, provided that the storage probe,
    under the name that the code passes, answers [true]. *)
Theorem turnstile_once_per_day cfg localStorage uuid now sent r
    readyState status done uuid' now' sent' :
  storageAvailable "localSotorage" = true →
  postTurnstileEvent storageAvailable validateUuid version getDate
    cfg localStorage uuid now sent = Return (Some r) →
  (readyState = 4%Z ∧ status = 200%Z) ∨ status = 204%Z →
  done ≠ 0%Z →
  same_day_of_month getDate done now' →
  (done ≤ now' < done + msPerDay)%Z →
  postTurnstileEvent storageAvailable validateUuid version getDate
    cfg (onreadystatechange r readyState status done localStorage)
    uuid' now' sent'
  = Return None.
Proof.
  intros Hs Hr Hst Hdone Hday Hlt.
  assert (handler_localStorageAvailable r = true ∧ truthy (ACCESS_TOKEN cfg) = true)
    as [Hh Htok].
  { revert Hr. unfold postTurnstileEvent. rewrite Hs.
    destruct (truthy (ACCESS_TOKEN cfg)); [|done]. cbn [negb].
    destruct (retrieve _ _) as [a l]. destruct (_ && _); [done|].
    destruct (parseUrl (EVENTS_URL cfg)); [|done]. by intros [= <-]. }
  rewrite onreadystatechange_writes. rewrite decide_True by (rewrite Hh; tauto).
  unfold postTurnstileEvent, retrieve. rewrite Htok, Hs, lookup_insert_eq.
  cbn [negb lastSuccess anonId truthy_number number_or_zero].
  destruct (Z.eqb_spec done 0) as [|_]; [done|]. cbn [negb andb].
  assert (sameDayPing getDate now' done = true) as ->; [|done].
  apply sameDayPing_spec. split; [done|].
  rewrite daysElapsed_Qle, daysElapsed_Qlt. lia.
Qed.


(** When the storage probe answers [false], the store is not read: the
    outcome of a call is the same for every content of the store, and no
    call with a configured token returns without trying to send. *)
Theorem turnstile_storage_unread cfg localStorage localStorage' uuid now sent :
  storageAvailable "localSotorage" = false →
  postTurnstileEvent storageAvailable validateUuid version getDate
    cfg localStorage uuid now sent
  = postTurnstileEvent storageAvailable validateUuid version getDate
      cfg localStorage' uuid now sent
  ∧ (truthy (ACCESS_TOKEN cfg) = true →
     postTurnstileEvent storageAvailable validateUuid version getDate
       cfg localStorage uuid now sent ≠ Return None).
Proof.
  intros Hs. unfold postTurnstileEvent. rewrite Hs. split; [done|].
  intros ->. cbn. by destruct (parseUrl (EVENTS_URL cfg)).
Qed.

End Reporting.

Lemma turnstile_request_witness :
  postTurnstileEvent always_available no_uuid_check "0.45.0" utcGetDate
    sample_config ∅ "uuid" 1793664000000 1793664000001
  = Return (Some (mkRequest "POST"
                    "https://events.mapbox.com/events/v2?access_token=pk.KEY"
                    true [("Content-Type", "text/plain")]
                    (mkTurnstileEvent "appUserTurnstile" 1793664000001
                       "mapbox-gl-js" "0.45.0" false "")
                    true ""))
  ∧ truthy (ACCESS_TOKEN sample_config) = true.
Proof.
  split; [vm_compute; reflexivity|].
  eapply (turnstile_request always_available no_uuid_check "0.45.0" utcGetDate
            sample_config ∅ "uuid" 1793664000000 1793664000001).
  vm_compute. reflexivity.
Defined.

Lemma turnstile_once_per_day_witness :
  always_available "localSotorage" = true
  ∧ same_day_of_month utcGetDate 1793664000500 1793667600000
  ∧ postTurnstileEvent always_available no_uuid_check "0.45.0" utcGetDate
      sample_config
      (onreadystatechange
         (mkRequest "POST"
            "https://events.mapbox.com/events/v2?access_token=pk.KEY"
            true [("Content-Type", "text/plain")]
            (mkTurnstileEvent "appUserTurnstile" 1793664000001
               "mapbox-gl-js" "0.45.0" false "")
            true "")
         4 200 1793664000500 ∅)
      "uuid2" 1793667600000 1793667600001
    = Return None.
Proof.
  split; [reflexivity|]. split; [by exists 3%Z|].
  apply (turnstile_once_per_day always_available no_uuid_check "0.45.0"
           utcGetDate sample_config ∅ "uuid" 1793664000000 1793664000001);
    [reflexivity | vm_compute; reflexivity | by left | done | by exists 3%Z
    | vm_compute; split; [discriminate | reflexivity]].
Defined.


Lemma turnstile_storage_unread_witness :
  postTurnstileEvent (λ _, false) no_uuid_check "0.45.0" utcGetDate
    sample_config (sample_store 1793664000000) "uuid" 1793667600000
    1793667600001
  ≠ Return None.
Proof.
  apply (turnstile_storage_unread (λ _, false) no_uuid_check "0.45.0"
           utcGetDate sample_config (sample_store 1793664000000) ∅ "uuid"
           1793667600000 1793667600001); reflexivity.
Defined.

(** The handler writes under the turnstile key only: every other key of
    the store keeps its value, at every ready state and status; and with
    a status other than 200 and 204 the store is left as it was. *)
Theorem handler_frame r readyState status now
    (localStorage : gmap string TurnstileData) :
  (∀ k, k ≠ turnstileKey →
        onreadystatechange r readyState status now localStorage !! k
        = localStorage !! k)
  ∧ (status ≠ 200%Z → status ≠ 204%Z →
     onreadystatechange r readyState status now localStorage = localStorage).
Proof.
  rewrite onreadystatechange_writes. split.
  - intros k Hk. case_decide; [|done]. by rewrite lookup_insert_ne.
  - intros H200 H204. case_decide as H; [|done].
    by destruct H as [(_ & _ & ?)|?].
Qed.
